(** * gmaltcli: the worker pool and its stage handlers

    A shallow embedding of [gmaltcli/worker.py] and [gmaltcli/hgt.py].

    - [Pool], [PoolRun] : [SafeCounter], [WorkerPool] and the generic [Worker]
                   thread loop, as an interleaving semantics over the shared
                   queue, counter and stop event.
    - [Download] : [DownloadWorker] over a file system and a network.
    - [Extract]  : [ExtractWorker] over a file system.
    - [Hgt], [HgtBlocks] : [HgtParser.get_value], [HgtValueIterator] and
                   [HgtSampleIterator].
    - [ImportStage], [ImportIterator] : [ImportWorker._execute_import] and
                   [ImportWorker._get_iterator].  *)

From Stdlib Require Import ZArith Lia.
From stdpp Require Import base list strings gmap.
From Equations Require Import Equations.

Open Scope Z_scope.

(* ===================================================================== *)
(** ** The worker pool *)
(* ===================================================================== *)

Module Pool.

(** [SafeCounter]: the lock makes [increment] one atomic step. *)
Record SafeCounter := mkCounter {
  counter : Z;
  max : Z;
  incr : Z
}.

(** [SafeCounter.__init__(start=0, max_=0, incr=1)] with its defaults. *)
Definition SafeCounter_init : SafeCounter :=
  {| counter := 0; max := 0; incr := 1 |}.

(** [SafeCounter.increment]: the new value paired with [max]. *)
Definition increment (c : SafeCounter) : (Z * Z) * SafeCounter :=
  let next_counter := counter c + incr c in
  ((next_counter, max c),
   {| counter := next_counter; max := max c; incr := incr c |}).

(** [SafeCounter.get] *)
Definition get (c : SafeCounter) : Z := counter c.

Definition set_max (m : Z) (c : SafeCounter) : SafeCounter :=
  {| counter := counter c; max := m; incr := incr c |}.

(** What [process(queue_item, counter_info)] does with an item is left to the
    subclass; the pool only sees whether the call returns or raises an
    [Exception].  Every call is taken to end. *)
Inductive handler_outcome := HandlerReturns | HandlerRaises.

(** How a call of [WorkerPool.start] ends. *)
Inductive start_result :=
| Returned
| RaisedWorkerPoolException
| RaisedKeyboardInterrupt.

(** Where the main thread stands inside [WorkerPool.start]. *)
Inductive mpc :=
| MStarting (k : nat)   (* in [for worker in self.workers], about to start workers[k] *)
| MWait                 (* in [self._wait()] of the [try] block *)
| MHandler              (* [except KeyboardInterrupt]: about to [self.stop_event.set()] *)
| MWaitInterrupted      (* in [self._wait()] of the [except] clause *)
| MCheck                (* about to test [self.stop_event.is_set()] *)
| MDone (r : start_result).

Section WorkerPool.
Context {Item : Type}.

(** Where a worker thread stands inside [Worker.run] / [Worker._get_queue]. *)
Inductive wpc :=
| WNotStarted                         (* thread object built, [start()] not called *)
| WLoopTop                            (* about to evaluate [self.queue.empty()] *)
| WCheckStop                          (* [empty()] was False; about to evaluate [self.stop_event.is_set()] *)
| WGet                                (* in [_get_queue], about to call [self.queue.get()] *)
| WIncrement (x : Item)               (* about to call [self.counter.increment()] *)
| WProcess (x : Item) (info : Z * Z)  (* about to call [self.process(queue_item, counter_info)] *)
| WTaskDone                           (* about to call [self.queue.task_done()] *)
| WSetStop                            (* in [except Exception], about to [self.stop_event.set()] *)
| WStopped.                           (* left the loop, ran [_on_end], thread finished *)

(** What happened so far, oldest first.  The worker is named by its position
    in [self.workers] (its [id] is that position plus one). *)
Inductive hevent :=
| HDequeue (w : nat) (x : Item)     (* [queue.get()] handed [x] to worker [w] *)
| HProcessed (w : nat) (x : Item)   (* [process(x, _)] was run by [w] and returned *)
| HFailed (w : nat) (x : Item)      (* [process(x, _)] was run by [w] and raised *)
| HStopSet                          (* [stop_event.set()] was executed *)
| HInterrupt                        (* a KeyboardInterrupt reached the main thread *)
| HPoolException.                   (* [start] raised [WorkerPoolException] *)

Record pool := mkPool {
  queue : list Item;          (* [queue.Queue()], head is the next item out *)
  unfinished_tasks : nat;     (* the queue's count of items not yet [task_done] *)
  pcounter : SafeCounter;
  stop_event : bool;          (* [threading.Event()] *)
  workers : list wpc;
  main : mpc;
  history : list hevent
}.

Definition set_queue (q : list Item) (st : pool) : pool :=
  mkPool q (unfinished_tasks st) (pcounter st) (stop_event st) (workers st) (main st) (history st).
Definition set_unfinished (n : nat) (st : pool) : pool :=
  mkPool (queue st) n (pcounter st) (stop_event st) (workers st) (main st) (history st).
Definition set_counter (c : SafeCounter) (st : pool) : pool :=
  mkPool (queue st) (unfinished_tasks st) c (stop_event st) (workers st) (main st) (history st).
Definition set_stop (st : pool) : pool :=
  mkPool (queue st) (unfinished_tasks st) (pcounter st) true (workers st) (main st) (history st).
Definition set_worker (i : nat) (w : wpc) (st : pool) : pool :=
  mkPool (queue st) (unfinished_tasks st) (pcounter st) (stop_event st) (<[i:=w]> (workers st)) (main st) (history st).
Definition set_main (m : mpc) (st : pool) : pool :=
  mkPool (queue st) (unfinished_tasks st) (pcounter st) (stop_event st) (workers st) m (history st).
Definition record (e : hevent) (st : pool) : pool :=
  mkPool (queue st) (unfinished_tasks st) (pcounter st) (stop_event st) (workers st) (main st) (history st ++ [e]).

(** [WorkerPool.__init__(worker, size)]: [range(size)] is empty for
    [size <= 0], and nothing checks [size]. *)
Definition WorkerPool_init (size : Z) : pool :=
  {| queue := [];
     unfinished_tasks := 0;
     pcounter := SafeCounter_init;
     stop_event := false;
     workers := replicate (Z.to_nat size) WNotStarted;
     main := MStarting 0;
     history := [] |}.

(** [WorkerPool.fill(iterable)]: every item is [put] in iteration order (for a
    dict, [items] lists its values in key order), then [counter.max] is set. *)
Definition fill (items : list Item) (st : pool) : pool :=
  set_counter (set_max (Z.of_nat (length items)) (pcounter st))
    (set_unfinished (unfinished_tasks st + length items)
       (set_queue (queue st ++ items) st)).

(** [Thread.isAlive()]: started and not yet finished. *)
Definition isAlive (w : wpc) : bool :=
  match w with
  | WNotStarted | WStopped => false
  | _ => true
  end.

(** [any([worker.isAlive() for worker in self.workers])].  The list is built
    one call at a time; as a thread that was started only goes from alive to
    finished, reading all of them at once gives the same answers when the
    result is [False], and one more turn of the loop otherwise. *)
Definition any_alive (st : pool) : bool := existsb isAlive (workers st).

(** One atomic step of worker [i].  [o] is the outcome of the handler, read
    only by the step that calls [process].  [None]: the worker cannot move
    (not started, finished, or blocked in [queue.get()] on an empty queue). *)
Definition worker_step (i : nat) (o : handler_outcome) (st : pool) : option pool :=
  match workers st !! i with
  | None => None
  | Some WNotStarted => None
  | Some WLoopTop =>
      (* [if self.queue.empty() or ...: break] *)
      match queue st with
      | [] => Some (set_worker i WStopped st)
      | _ :: _ => Some (set_worker i WCheckStop st)
      end
  | Some WCheckStop =>
      (* [... or self.stop_event.is_set(): break], else [self._get_queue()] *)
      if stop_event st then Some (set_worker i WStopped st)
      else Some (set_worker i WGet st)
  | Some WGet =>
      (* [queue_item = self.queue.get()]: blocks while the queue is empty *)
      match queue st with
      | [] => None
      | x :: q => Some (record (HDequeue i x) (set_worker i (WIncrement x) (set_queue q st)))
      end
  | Some (WIncrement x) =>
      let '(info, c) := increment (pcounter st) in
      Some (set_worker i (WProcess x info) (set_counter c st))
  | Some (WProcess x info) =>
      match o with
      | HandlerReturns => Some (record (HProcessed i x) (set_worker i WTaskDone st))
      | HandlerRaises => Some (record (HFailed i x) (set_worker i WSetStop st))
      end
  | Some WTaskDone =>
      (* [task_done()] raises ValueError when called more often than [put] *)
      match unfinished_tasks st with
      | O => Some (set_worker i WSetStop st)
      | S n => Some (set_worker i WLoopTop (set_unfinished n st))
      end
  | Some WSetStop =>
      (* [self.stop_event.set()], then back to [while True] *)
      Some (record HStopSet (set_worker i WLoopTop (set_stop st)))
  | Some WStopped => None
  end.

(** One step of the main thread inside [start]. *)
Definition main_step (st : pool) : option pool :=
  match main st with
  | MStarting k =>
      match workers st !! k with
      | Some _ => Some (set_main (MStarting (S k)) (set_worker k WLoopTop st))
      | None => Some (set_main MWait st)
      end
  | MWait =>
      (* [while any(...): time.sleep(0.1)] *)
      if any_alive st then Some st else Some (set_main MCheck st)
  | MHandler => Some (record HStopSet (set_main MWaitInterrupted (set_stop st)))
  | MWaitInterrupted =>
      if any_alive st then Some st
      else Some (set_main (MDone RaisedKeyboardInterrupt) st)
  | MCheck =>
      if stop_event st
      then Some (record HPoolException (set_main (MDone RaisedWorkerPoolException) st))
      else Some (set_main (MDone Returned) st)
  | MDone _ => None
  end.

(** A KeyboardInterrupt reaches the main thread.  Inside the [try] block it is
    caught by the handler; anywhere else in [start] it leaves the call. *)
Definition interrupt_step (st : pool) : option pool :=
  match main st with
  | MStarting _ | MWait => Some (record HInterrupt (set_main MHandler st))
  | MHandler | MWaitInterrupted | MCheck =>
      Some (record HInterrupt (set_main (MDone RaisedKeyboardInterrupt) st))
  | MDone _ => None
  end.

Inductive event :=
| EvWorker (i : nat) (o : handler_outcome)
| EvMain
| EvInterrupt.

Definition step (e : event) (st : pool) : option pool :=
  match e with
  | EvWorker i o => worker_step i o st
  | EvMain => main_step st
  | EvInterrupt => interrupt_step st
  end.

(** A schedule is a list of events; [run] is [None] when the schedule asks a
    thread to move that cannot. *)
Fixpoint run (tr : list event) (st : pool) : option pool :=
  match tr with
  | [] => Some st
  | e :: tr => match step e st with Some st' => run tr st' | None => None end
  end.

(** The pool as [start()] finds it: built with [size] workers, filled once. *)
Definition started (size : Z) (items : list Item) : pool :=
  fill items (WorkerPool_init size).

(** *** Readings of the history *)

Definition dequeue_of (e : hevent) : option (nat * Item) :=
  match e with HDequeue w x => Some (w, x) | _ => None end.
Definition processed_of (e : hevent) : option (nat * Item) :=
  match e with HProcessed w x => Some (w, x) | _ => None end.
Definition failed_of (e : hevent) : option (nat * Item) :=
  match e with HFailed w x => Some (w, x) | _ => None end.

Definition dequeued (st : pool) : list (nat * Item) := omap dequeue_of (history st).
Definition processed (st : pool) : list (nat * Item) := omap processed_of (history st).
Definition failed (st : pool) : list (nat * Item) := omap failed_of (history st).

Definition is_interrupt (e : hevent) : bool :=
  match e with HInterrupt => true | _ => false end.
Definition is_pool_exception (e : hevent) : bool :=
  match e with HPoolException => true | _ => false end.

(** Whether a KeyboardInterrupt reached [start], and how many
    [WorkerPoolException]s [start] raised. *)
Definition was_interrupted (st : pool) : bool := existsb is_interrupt (history st).
Definition pool_exceptions (st : pool) : nat :=
  length (List.filter is_pool_exception (history st)).

(** The item a worker holds between [queue.get()] and the call of [process],
    and the item it holds before [counter.increment()]. *)
Definition held (w : wpc) : list Item :=
  match w with
  | WIncrement x | WProcess x _ => [x]
  | _ => []
  end.
Definition held_by (i : nat) (w : wpc) : list (nat * Item) := pair i <$> held w.
Definition in_flight (ws : list wpc) : list (nat * Item) := mjoin (imap held_by ws).
Definition awaiting_increment (w : wpc) : list Item :=
  match w with
  | WIncrement x => [x]
  | _ => []
  end.

(** How many items worker [i] took from the queue. *)
Definition dequeues_by (i : nat) (st : pool) : nat :=
  length (List.filter (λ p, Nat.eqb (fst p) i) (dequeued st)).

(** The dequeues that happened after the first [stop_event.set()]. *)
Fixpoint dequeued_after_stop (h : list hevent) : list (nat * Item) :=
  match h with
  | [] => []
  | HStopSet :: h' => omap dequeue_of h'
  | _ :: h' => dequeued_after_stop h'
  end.

Definition count_interrupts (tr : list event) : nat :=
  length (List.filter (λ e, match e with EvInterrupt => true | _ => false end) tr).

(** *** The invariant of a run *)

(** What the main thread's position says about the threads. *)
Definition threads_ok (st : pool) : Prop :=
  match main st with
  | MStarting k =>
      ∀ j w, workers st !! j = Some w →
        ((j < k)%nat → w ≠ WNotStarted) ∧ ((k ≤ j)%nat → w = WNotStarted)
  | MWait => WNotStarted ∉ workers st
  | MCheck => Forall (λ w, w = WStopped) (workers st)
  | MDone Returned =>
      Forall (λ w, w = WStopped) (workers st) ∧ stop_event st = false
  | MDone RaisedWorkerPoolException =>
      Forall (λ w, w = WStopped) (workers st) ∧ stop_event st = true
  | _ => True
  end.

(** The positions of [start] that a KeyboardInterrupt leads to. *)
Definition in_handler (m : mpc) : bool :=
  match m with
  | MHandler | MWaitInterrupted | MDone RaisedKeyboardInterrupt => true
  | _ => false
  end.

Record pool_inv (size : Z) (items : list Item) (st : pool) : Prop := {
  inv_size : length (workers st) = Z.to_nat size;
  inv_threads : threads_ok st;
  (* the queue is first in, first out, and nothing is put after [fill] *)
  inv_fifo : items = (dequeued st).*2 ++ queue st;
  (* a dequeued item is held by a worker, or was handed to [process] once *)
  inv_flow :
    dequeued st ≡ₚ in_flight (workers st) ++ processed st ++ failed st;
  (* a failure is followed by [stop_event.set()] *)
  inv_failed : failed st = [] ∨ stop_event st = true ∨ WSetStop ∈ workers st;
  (* a worker only leaves its loop on an empty queue or a set stop event *)
  inv_stopped : WStopped ∈ workers st → queue st = [] ∨ stop_event st = true;
  inv_counter :
    incr (pcounter st) = 1 ∧ max (pcounter st) = Z.of_nat (length items) ∧
    counter (pcounter st)
      + Z.of_nat (length (workers st ≫= awaiting_increment))
    = Z.of_nat (length (dequeued st));
  inv_interrupt : was_interrupted st = in_handler (main st);
  inv_exception :
    pool_exceptions st =
      match main st with MDone RaisedWorkerPoolException => 1%nat | _ => 0%nat end
}.

(** A pool without workers: nothing leaves the queue, and only the
    interruption handler sets the stop event. *)
Definition idle (items : list Item) (st : pool) : Prop :=
  workers st = [] ∧ queue st = items ∧
  dequeued st = [] ∧ processed st = [] ∧ failed st = [] ∧
  (stop_event st = true → was_interrupted st = true).

(** The one dequeue a worker is committed to: it passed the test at the top
    of its loop and stands before [queue.get()]. *)
Definition committed (w : option wpc) : nat :=
  match w with Some WGet => 1%nat | _ => 0%nat end.

(** Worker [i] is blocked in [queue.get()] on an empty queue while [start]
    waits for it; [n] bounds the interruptions still to come. *)
Definition waiting_on_blocked (i : nat) (n : nat) (st : pool) : Prop :=
  queue st = [] ∧ workers st !! i = Some WGet ∧
  match main st with
  | MWait => (n ≤ 1)%nat
  | MHandler | MWaitInterrupted => n = 0%nat
  | _ => False
  end.

End WorkerPool.
Arguments wpc : clear implicits.
Arguments hevent : clear implicits.
Arguments pool : clear implicits.

(** *** Schedules of a pool of two workers, used below *)

Definition w0 (o : handler_outcome) : event := EvWorker 0 o.
Definition w1 (o : handler_outcome) : event := EvWorker 1 o.
Definition returns := HandlerReturns.
Definition raises := HandlerRaises.

(** [start()] launches both threads and enters [_wait()]. *)
Definition launch : list event := [EvMain; EvMain; EvMain].

(** Worker 0 handles two items, worker 1 finds the queue empty. *)
Definition clean_schedule : list event :=
  launch ++ replicate 13 (w0 returns) ++ [w1 returns] ++ [EvMain; EvMain].

(** Both workers pass the loop test, each takes an item, both handlers raise. *)
Definition both_fail_schedule : list event :=
  launch ++
  [w0 returns; w0 returns; w1 returns; w1 returns;   (* both pass the loop test *)
   w0 returns; w1 returns; w0 returns; w1 returns;   (* get, increment *)
   w0 raises; w1 raises;                             (* process raises twice *)
   w0 returns; w1 returns;                           (* stop_event.set() twice *)
   w0 returns; w1 returns;                           (* loop test: queue empty *)
   EvMain; EvMain].

(** Both workers pass the loop test; worker 0 takes item 1, its handler
    raises and it sets the stop event. *)
Definition race_schedule : list event :=
  launch ++
  [w0 returns; w0 returns; w1 returns; w1 returns;
   w0 returns; w0 returns; w0 raises; w0 returns].

(** Then worker 1 goes on: [queue.get()], [increment()], [process]. *)
Definition race_continuation : list event :=
  [w1 returns; w1 returns; w1 returns].

(** One item: both workers pass the loop test, worker 0 takes the item. *)
Definition hang_schedule : list event :=
  launch ++ [w0 returns; w0 returns; w1 returns; w1 returns; w0 returns].

End Pool.

(* ===================================================================== *)
(** ** The download stage *)
(* ===================================================================== *)

Module Download.

(** The exceptions the download code tells apart.  [HTTPError] is a subclass
    of [URLError]; everything else ([IOError], socket errors, ...) is
    [OtherError]. *)
Inductive exn :=
| InvalidCheckSumException
| BadZipfile
| URLError
| HTTPError
| OtherError (what : string).

Inductive result (A : Type) :=
| Ok (a : A)
| Raise (e : exn).
Arguments Ok {A} a.
Arguments Raise {A} e.

(** What [urlopen(url)] answers: it raises, or it gives a stream whose
    successive [read(4096)] calls return [chunks] and then either the empty
    string (end of file) or an error. *)
Inductive response :=
| OpenFails (e : exn)
| Stream (chunks : list (list Byte.byte)) (broken : option exn).

(** The world a download worker acts on.  [net n url] is the answer to the
    [n]-th call of [urlopen]; [stop_oracle n] is what the [n]-th call of
    [stop_event.is_set()] made by this worker observes (other threads set the
    event).  [polls] and [opened] record the calls made; [calls] counts the
    invocations of [_download_file]. *)
Record world := mkWorld {
  fs : gmap string (list Byte.byte);
  net : nat → string → response;
  opened : list string;
  stop_oracle : nat → bool;
  polls : nat;
  calls : nat
}.

Definition write_file (path : string) (c : list Byte.byte) (w : world) : world :=
  mkWorld (<[path:=c]> (fs w)) (net w) (opened w) (stop_oracle w) (polls w) (calls w).
Definition log_open (url : string) (w : world) : world :=
  mkWorld (fs w) (net w) (opened w ++ [url]) (stop_oracle w) (polls w) (calls w).
Definition count_call (w : world) : world :=
  mkWorld (fs w) (net w) (opened w) (stop_oracle w) (polls w) (S (calls w)).

(** [self.stop_event.is_set()] *)
Definition is_set (w : world) : bool * world :=
  (stop_oracle w (polls w),
   mkWorld (fs w) (net w) (opened w) (stop_oracle w) (S (polls w)) (calls w)).

(** [urlopen(url)] *)
Definition urlopen (url : string) (w : world) : response * world :=
  (net w (length (opened w)) url, log_open url w).

(** [output.write(data)] on the file opened at [path]. *)
Definition append_file (path : string) (data : list Byte.byte) (w : world) : world :=
  write_file path (default [] (fs w !! path) ++ data) w.

(** Python truth value of a string that may be [None]. *)
Definition truthy (s : option string) : bool :=
  match s with
  | Some s => negb (String.eqb s EmptyString)
  | None => false
  end.

(** [DownloadWorker]: the fields [__init__] sets. *)
Record DownloadWorker := mkDownloadWorker {
  folder : string;
  max_attempt : nat
}.

(** [DownloadWorker.__init__(id_, queue_obj, counter, stop_event, folder)] *)
Definition DownloadWorker_init (folder : string) : DownloadWorker :=
  {| folder := folder; max_attempt := 3 |}.

(** A queue item of the download stage: [queue_item['url']],
    [queue_item['zip']], [queue_item.get('md5', None)]. *)
Record download_item := mkItem {
  url : string;
  zip : string;
  md5 : option string
}.

Section Handler.
(** The library functions the handler calls: [os.path.join],
    [hashlib.md5(data).hexdigest()], whether [zipfile.ZipFile(path)] accepts
    the data as an archive, and [ZipFile.testzip()] (the name of the first
    member with a bad CRC or header, or [None]). *)
Variable path_join : string → string → string.
Variable md5_hexdigest : list Byte.byte → string.
Variable is_zipfile : list Byte.byte → bool.
Variable testzip : list Byte.byte → option string.

(** [DownloadWorker._validate_downloaded_file(filepath, md5sum)] *)
Definition _validate_downloaded_file
    (filepath : string) (md5sum : option string) (w : world) : result unit :=
  match fs w !! filepath with
  | None => Raise (OtherError "IOError")       (* [open] / [ZipFile] find no file *)
  | Some data =>
      (* First check md5sum *)
      if truthy md5sum && negb (bool_decide (md5sum = Some (md5_hexdigest data)))
      then Raise InvalidCheckSumException
      (* Then check zip file *)
      else if negb (is_zipfile data) then Raise BadZipfile
      else if truthy (testzip data) then Raise BadZipfile
      else Ok tt
  end.

(** [DownloadWorker._file_exists(filepath, md5sum)]: [os.path.isfile], then
    the validation; any exception means [False]. *)
Definition _file_exists (filepath : string) (md5sum : option string) (w : world) : bool :=
  match fs w !! filepath with
  | None => false
  | Some _ =>
      match _validate_downloaded_file filepath md5sum w with
      | Ok _ => true
      | Raise _ => false
      end
  end.

(** The loop of [_download_file]:
    [data = hgt_zip_file.read(4096)];
    [if data and not self.stop_event.is_set(): output.write(data)]
    [else: output.flush(); os.fsync(...); break]. *)
Fixpoint transfer (chunks : list (list Byte.byte)) (broken : option exn)
    (path : string) (w : world) : result unit * world :=
  match chunks with
  | [] =>
      match broken with
      | None => (Ok tt, w)              (* [read] returns the empty string *)
      | Some e => (Raise e, w)          (* [read] raises *)
      end
  | [] :: _ => (Ok tt, w)
  | data :: rest =>
      let '(stop, w1) := is_set w in
      if stop then (Ok tt, w1)
      else transfer rest broken path (append_file path data w1)
  end.

(** [DownloadWorker._download_file(url, filename, md5sum)] *)
Definition _download_file (self : DownloadWorker)
    (url filename : string) (md5sum : option string) (w : world) : result unit * world :=
  let w := count_call w in
  let file_fullpath := path_join (folder self) filename in
  if _file_exists file_fullpath md5sum w then (Ok tt, w)
  else
    match urlopen url w with
    | (OpenFails e, w1) => (Raise e, w1)
    | (Stream chunks broken, w1) =>
        (* [open(file_fullpath, 'wb+')] truncates the file *)
        match transfer chunks broken file_fullpath (write_file file_fullpath [] w1) with
        | (Raise e, w2) => (Raise e, w2)
        | (Ok _, w2) => (_validate_downloaded_file file_fullpath md5sum w2, w2)
        end
    end.

(** The exceptions [_secured_download_file] catches and retries on:
    [except (InvalidCheckSumException, zipfile.BadZipfile)], [except URLError]
    (which also catches its subclass [HTTPError], so that the
    [except HTTPError] clause below it is never reached; it does the same). *)
Definition retried (e : exn) : bool :=
  match e with
  | InvalidCheckSumException | BadZipfile | URLError | HTTPError => true
  | OtherError _ => false
  end.

(** [DownloadWorker._secured_download_file(url, filename, md5sum, attempt,
    exc_error)].  The recursive calls stand in [except] clauses, so what they
    raise is not caught again by this call. *)
Equations? _secured_download_file (self : DownloadWorker)
    (url filename : string) (md5sum : option string)
    (attempt : nat) (exc_error : exn) (w : world) : result unit * world
    by wf (S (max_attempt self) - attempt)%nat lt :=
  _secured_download_file self url filename md5sum attempt exc_error w
    with le_lt_dec attempt (max_attempt self) => {
    | right _ => (Raise exc_error, w);           (* [attempt > self.max_attempt] *)
    | left _ with _download_file self url filename md5sum w => {
      | (Ok _, w1) => (Ok tt, w1);
      | (Raise e, w1) with retried e => {
        | true => _secured_download_file self url filename md5sum (S attempt) e w1;
        | false => (Raise e, w1) } } }.
Proof. lia. Qed.

(** [DownloadWorker.process(queue_item, counter_info)]; the defaults of
    [_secured_download_file] are [attempt=1] and
    [exc_error=Exception('not defined')]. *)
Definition process (self : DownloadWorker) (queue_item : download_item)
    (w : world) : result unit * world :=
  _secured_download_file self (url queue_item) (zip queue_item) (md5 queue_item)
    1 (OtherError "not defined") w.

End Handler.

(** *** A small instance, used in the examples below *)

Definition demo_join (a b : string) : string := a +:+ "/" +:+ b.
Definition demo_md5 (data : list Byte.byte) : string :=
  match data with
  | [] => "d41d8cd98f00b204e9800998ecf8427e"
  | _ => "0cc175b9c0f1b6a831c399e269772661"
  end.
(** An archive starts with the letter P; its CRC is bad when it ends there. *)
Definition demo_is_zipfile (data : list Byte.byte) : bool :=
  match data with
  | Byte.x50 :: _ => true
  | _ => false
  end.
Definition demo_testzip (data : list Byte.byte) : option string :=
  match data with
  | [Byte.x50] => Some "N00E010.hgt"
  | _ => None
  end.


Definition demo_item : download_item :=
  {| url := "http://example.org/N00E010.hgt.zip";
     zip := "N00E010.hgt.zip";
     md5 := None |}.

(** No file yet; the first [urlopen] fails to connect, the second delivers
    data that is no archive, the third answers with an HTTP error. *)
Definition demo_failing_world : world :=
  {| fs := ∅;
     net := λ n _,
       match n with
       | O => OpenFails URLError
       | S O => Stream [[Byte.x41; Byte.x42]] None
       | _ => OpenFails HTTPError
       end;
     opened := [];
     stop_oracle := λ _, false;
     polls := 0;
     calls := 0 |}.

(** No file yet; the first [urlopen] fails to connect, the second delivers a
    stream whose [read] raises an error that is not retried. *)
Definition demo_unexpected_world : world :=
  {| fs := ∅;
     net := λ n _,
       match n with
       | O => OpenFails URLError
       | _ => Stream [[Byte.x50]] (Some (OtherError "socket.timeout"))
       end;
     opened := [];
     stop_oracle := λ _, false;
     polls := 0;
     calls := 0 |}.

(** A sound archive is already at the destination. *)
Definition demo_resumed_world : world :=
  {| fs := {[ "tmp/N00E010.hgt.zip" := [Byte.x50; Byte.x4b] ]};
     net := λ _ _, OpenFails URLError;
     opened := [];
     stop_oracle := λ _, false;
     polls := 0;
     calls := 0 |}.


End Download.

(* ===================================================================== *)
(** ** The raster decoder and the import stage *)
(* ===================================================================== *)

(** The model follows Python 2, which the sources are written for
    ([xrange], [isAlive], [urllib2]): [/] on integers is floor division and a
    [raise StopIteration] inside a generator ends the iteration.  From
    Python 3.7 on that statement surfaces as a RuntimeError once the last
    value was delivered; [generator_end] below stands for either outcome. *)

Module Hgt.

(** [HgtParser], entered: [file] is the content of the file it opened. *)
Record HgtParser := mkParser {
  file : list Byte.byte;
  sample_lat : Z;
  sample_lng : Z
}.

(** What a read of the file gives: a value, or an exception ([struct.error]
    on a short buffer, [IOError] on a negative offset). *)
Inductive read (A : Type) :=
| Got (a : A)
| ReadFails.
Arguments Got {A} a.
Arguments ReadFails {A}.

(** [struct.unpack('>h', buf)]: a big-endian signed 16-bit integer. *)
Definition unpack_h (buf : list Byte.byte) : option Z :=
  match buf with
  | [hi; lo] =>
      let u := 256 * Z.of_N (Byte.to_N hi) + Z.of_N (Byte.to_N lo) in
      Some (if 32768 <=? u then u - 65536 else u)
  | _ => None
  end.

(** [HgtParser.get_idx(col, line)] *)
Definition get_idx (p : HgtParser) (col line : Z) : Z :=
  line * sample_lng p + col.

(** [HgtParser.get_value(idx)]: [seek(idx * 2)], [read(2)], unpack;
    [None] stands for the void value -32768. *)
Definition get_value (p : HgtParser) (idx : Z) : read (option Z) :=
  if idx <? 0 then ReadFails
  else
    match unpack_h (take 2 (drop (Z.to_nat (idx * 2)) (file p))) with
    | Some val => Got (if val =? -32768 then None else Some val)
    | None => ReadFails
    end.

Section Iterator.
(** Corner coordinates are floating-point numbers; they are carried along
    as an abstract [Square]. *)
Context {Square : Type}.
Variable shift_first_square : HgtParser → Z → Z → Square.

(** The tuple [HgtValueIterator] yields:
    [(line + 1, col + 1, idx, square, value)]. *)
Record yielded := mkYielded {
  y_line : Z;
  y_col : Z;
  y_idx : Z;
  y_square : Square;
  y_value : option Z
}.

(** One turn of the [while] loop of [HgtValueIterator.__iter__]. *)
Definition yield_at (p : HgtParser) (idx : Z) : read yielded :=
  let line := idx / sample_lng p in
  let col := idx mod sample_lng p in
  let square := shift_first_square p line col in
  match get_value p idx with
  | Got v => Got (mkYielded (line + 1) (col + 1) idx square v)
  | ReadFails => ReadFails
  end.

(** [HgtValueIterator(parser).__iter__()]: what the generator delivers for
    [idx = 0, 1, ...] while [idx < sample_lat * sample_lng]. *)
Definition HgtValueIterator (p : HgtParser) : list (read yielded) :=
  (λ k, yield_at p (Z.of_nat k)) <$> seq 0 (Z.to_nat (sample_lat p * sample_lng p)).

End Iterator.
Arguments yielded : clear implicits.

(** The bytes of the samples 10, -32768, 20, 5. *)
Definition demo_file : list Byte.byte :=
  [Byte.x00; Byte.x0a; Byte.x80; Byte.x00; Byte.x00; Byte.x14; Byte.x00; Byte.x05].

End Hgt.

Module ImportStage.

Inductive import_error :=
| DecodeError            (* the iterator raised *)
| InsertError            (* [manager.insert_data] raised *)
| ZeroDivisionError      (* [float(processed) / total] with [total = 0] *)
| GeneratorError.        (* RuntimeError at the end of the generator *)

(** How [_execute_import] ends. *)
Inductive outcome :=
| Completed
| Stopped                (* [break] on a set stop event *)
| Raised (e : import_error).

(** The storage manager: [manager.insert_data(value, parser)] gives the new
    state of the manager, or raises ([None]). *)
Class Manager (M V : Type) := insert_data : V → Hgt.HgtParser → M → option M.

(** A manager that records what it is given. *)
#[export] Instance recording_manager {V} : Manager (list V) V :=
  λ value _ received, Some (received ++ [value]).

(** The iterator handed to [_execute_import]: its parser, what it delivers,
    the total it reports as [nb_values], and how the generator ends. *)
Record elev_iter (V : Type) := mkIter {
  parser : Hgt.HgtParser;
  delivers : list (Hgt.read V);
  nb_values : Z;
  generator_end : outcome
}.
Arguments parser {V} _.
Arguments delivers {V} _.
Arguments nb_values {V} _.
Arguments generator_end {V} _.

Section ExecuteImport.
Context {M V : Type} `{!Manager M V}.

(** The [for value in elev_iter] loop of [ImportWorker._execute_import].
    [stop k] is what [self.stop_event.is_set()] gives at the [k]-th value;
    [processed] counts the inserts.  The progress line is not modelled (it
    goes through floating point), only the division that computes it. *)
Fixpoint import_loop (p : Hgt.HgtParser) (total : Z) (at_end : outcome)
    (stop : nat → bool) (k : nat) (values : list (Hgt.read V))
    (processed : Z) (manager : M) : outcome * M * Z :=
  match values with
  | [] => (at_end, manager, processed)
  | Hgt.ReadFails :: _ => (Raised DecodeError, manager, processed)
  | Hgt.Got value :: rest =>
      if stop k then (Stopped, manager, processed)
      else
        match insert_data value p manager with
        | None => (Raised InsertError, manager, processed)
        | Some manager' =>
            let processed := processed + 1 in
            if total =? 0 then (Raised ZeroDivisionError, manager', processed)
            else import_loop p total at_end stop (S k) rest processed manager'
        end
  end.

(** [ImportWorker._execute_import(elev_iter, manager)] *)
Definition _execute_import (it : elev_iter V) (stop : nat → bool) (manager : M)
    : outcome * M * Z :=
  import_loop (parser it) (nb_values it) (generator_end it) stop 0
    (delivers it) 0 manager.

End ExecuteImport.

(** Modelled from the spec: the sample sequence producer of the raster
    decoder, with its total count.  [worker.py] takes the decoder from the
    package [gmalthgtparser], which is not under src/; the spec gives both its
    producers "a total-count property consumed by the Import handler for
    percentage computation".  The sequence is the one [HgtValueIterator] of
    [gmaltcli/hgt.py] produces ("one elevation value per grid cell in
    row-major order"); that class defines no [nb_values] itself - handed to
    [_execute_import] as it is, its first line [elev_iter.nb_values] raises
    AttributeError - so [total] is the count the source reports. *)
Definition raster_source {Square} (shift : Hgt.HgtParser → Z → Z → Square)
    (p : Hgt.HgtParser) (total : Z) (at_end : outcome)
    : elev_iter (Hgt.yielded Square) :=
  {| parser := p;
     delivers := Hgt.HgtValueIterator shift p;
     nb_values := total;
     generator_end := at_end |}.

End ImportStage.

(* ===================================================================== *)
(** ** Further readings of a run of the pool *)
(* ===================================================================== *)

Module PoolRun.
Import Pool.

Section Readings.
Context {Item : Type}.

(** A worker that took an item and has not yet called [task_done()] for it
    (or given up on it in the [except] clause). *)
Definition busy (w : wpc Item) : list unit :=
  match w with
  | WIncrement _ | WProcess _ _ | WTaskDone => [()]
  | _ => []
  end.

(** The number of KeyboardInterrupts that reached [start]. *)
Definition interrupts (st : pool Item) : nat :=
  length (List.filter is_interrupt (history st)).

(** The [counter_info] pair that [counter.increment()] returns when event [e]
    is such a call, and the pairs returned along a schedule, in the order of
    the calls of [increment]. *)
Definition counted_at (e : event) (st : pool Item) : list (Z * Z) :=
  match e with
  | EvWorker i _ =>
      match workers st !! i with
      | Some (WIncrement _) => [fst (increment (pcounter st))]
      | _ => []
      end
  | _ => []
  end.

Fixpoint counted_along (tr : list event) (st : pool Item) : list (Z * Z) :=
  match tr with
  | [] => []
  | e :: tr =>
      match step e st with
      | None => []
      | Some st' => counted_at e st ++ counted_along tr st'
      end
  end.

(** The [counter_info] pair that [process] is called with when event [e] is
    such a call, and the pairs the calls of [process] receive along a
    schedule, in the order of these calls. *)
Definition received_at (e : event) (st : pool Item) : list (Z * Z) :=
  match e with
  | EvWorker i _ =>
      match workers st !! i with
      | Some (WProcess _ info) => [info]
      | _ => []
      end
  | _ => []
  end.

Fixpoint received_along (tr : list event) (st : pool Item) : list (Z * Z) :=
  match tr with
  | [] => []
  | e :: tr =>
      match step e st with
      | None => []
      | Some st' => received_at e st ++ received_along tr st'
      end
  end.

(** The pair a worker holds between [counter.increment()] and the call of
    [process]. *)
Definition awaiting_process (w : wpc Item) : list (Z * Z) :=
  match w with
  | WProcess _ info => [info]
  | _ => []
  end.

(** An upper bound on the steps a worker still takes before it is back at
    the top of its loop with one item less in the queue. *)
Definition rank (w : wpc Item) : nat :=
  match w with
  | WNotStarted => 3
  | WLoopTop => 3
  | WCheckStop => 2
  | WGet => 1
  | WIncrement _ => 8
  | WProcess _ _ => 7
  | WTaskDone => 5
  | WSetStop => 4
  | WStopped => 0
  end.

Definition effort (st : pool Item) : nat :=
  8 * length (queue st) + sum_list (rank <$> workers st).

(** The steps [start] itself still takes, stutters of [_wait] apart. *)
Definition main_rank (st : pool Item) : nat :=
  match main st with
  | MStarting k => 5 + (length (workers st) - k)
  | MWait => 4
  | MHandler => 3
  | MWaitInterrupted => 2
  | MCheck => 1
  | MDone _ => 0
  end.

Definition is_worker_event (e : event) : bool :=
  match e with EvWorker _ _ => true | _ => false end.

Definition worker_events (tr : list event) : nat :=
  length (List.filter is_worker_event tr).

(** What holds along a run beyond [pool_inv]. *)
Record run_facts (st : pool Item) : Prop := {
  (* the queue's count of unfinished tasks *)
  facts_unfinished :
    unfinished_tasks st
    = (length (queue st) + length (workers st ≫= busy) + length (failed st))%nat;
  (* an interruption is handled once; a second one leaves [start] at once *)
  facts_interrupts :
    match main st with
    | MStarting _ | MWait | MCheck | MDone Returned
    | MDone RaisedWorkerPoolException => interrupts st = 0%nat
    | MHandler | MWaitInterrupted => interrupts st = 1%nat
    | MDone RaisedKeyboardInterrupt =>
        (2 ≤ interrupts st)%nat ∨ (interrupts st = 1%nat ∧ any_alive st = false)
    end
}.

(** A single worker stands before [queue.get()] only while there is an item. *)
Definition sole_worker_ok (st : pool Item) : Prop :=
  ∀ w, workers st = [w] → (w = WCheckStop ∨ w = WGet) → queue st ≠ [].

End Readings.

(** Two workers, two items; worker 0 has taken item 1 when [start()] is
    interrupted; the handler sets the stop event, both workers see it at the
    top of their loop, and the interruption is raised again. *)
Definition interrupted_schedule : list event :=
  launch ++ [w0 returns; w0 returns; w0 returns] ++
  [EvInterrupt; EvMain] ++
  replicate 5 (w0 returns) ++ [w1 returns; w1 returns] ++ [EvMain].

(** Two workers, two items; worker 0 is given the pair (1, 2) and worker 1
    the pair (2, 2), then worker 1 calls [process] before worker 0 does. *)
Definition crossed_schedule : list event :=
  launch ++
  [w0 returns; w0 returns; w1 returns; w1 returns;   (* both pass the loop test *)
   w0 returns; w0 returns;                           (* get, increment: (1, 2) *)
   w1 returns; w1 returns;                           (* get, increment: (2, 2) *)
   w1 returns; w0 returns].                          (* process, worker 1 first *)

End PoolRun.

(* ===================================================================== *)
(** ** More worlds for the download stage *)
(* ===================================================================== *)

Module DownloadWorlds.
Import Download.

(** Nothing on disk; the server delivers a sound archive in two chunks. *)
Definition demo_fresh_world : world :=
  {| fs := ∅;
     net := λ _ _, Stream [[Byte.x50]; [Byte.x4b]] None;
     opened := [];
     stop_oracle := λ _, false;
     polls := 0;
     calls := 0 |}.

(** The same, but the first [urlopen] fails to connect. *)
Definition demo_flaky_world : world :=
  {| fs := ∅;
     net := λ n _,
       match n with
       | O => OpenFails URLError
       | _ => Stream [[Byte.x50]; [Byte.x4b]] None
       end;
     opened := [];
     stop_oracle := λ _, false;
     polls := 0;
     calls := 0 |}.

(** The same as the first, but the stop event is set after the first chunk
    was written. *)
Definition demo_cancelled_world : world :=
  {| fs := ∅;
     net := λ _ _, Stream [[Byte.x50]; [Byte.x4b]] None;
     opened := [];
     stop_oracle := λ n, match n with O => false | _ => true end;
     polls := 0;
     calls := 0 |}.

End DownloadWorlds.

(* ===================================================================== *)
(** ** The extract stage *)
(* ===================================================================== *)

Module Extract.
Import Download.

(** [ExtractWorker]: the field [__init__] sets. *)
Record ExtractWorker := mkExtractWorker {
  xfolder : string
}.

Section Handler.
(** The library functions the handler calls: whether [zipfile.ZipFile(path)]
    accepts the data as an archive, [ZipFile.namelist()], the path at which
    [ZipFile.extract(name, folder)] writes a member, and the content it
    writes: an error (bad CRC, bad header), [None] for a directory entry,
    or the bytes of the file.  [ZipFile.extract] opens the target for writing
    before it copies the member, and a bad CRC only shows at the end of the
    copy: [written_before_error] is what is at the target when the member
    raises - [None] when the error came before the target was opened, the
    part copied so far (possibly empty) otherwise. *)
Variable is_zipfile : list Byte.byte → bool.
Variable namelist : list Byte.byte → list string.
Variable target : string → string → string.
Variable read_member : list Byte.byte → string → result (option (list Byte.byte)).
Variable written_before_error : list Byte.byte → string → option (list Byte.byte).

(** The loop [for name in zip_fd.namelist(): zip_fd.extract(name, self.folder)].
    The names were read when the archive was opened; a member is read from
    the archive file as it is when its turn comes. *)
Fixpoint extract_names (folder filename : string) (names : list string)
    (files : gmap string (list Byte.byte))
    : result unit * gmap string (list Byte.byte) :=
  match names with
  | [] => (Ok tt, files)
  | name :: rest =>
      match read_member (default [] (files !! filename)) name with
      | Raise e =>
          (Raise e,
           match written_before_error (default [] (files !! filename)) name with
           | Some partial => <[target folder name := partial]> files
           | None => files
           end)
      | Ok None => extract_names folder filename rest files
      | Ok (Some data) =>
          extract_names folder filename rest (<[target folder name := data]> files)
      end
  end.

(** [ExtractWorker._extract_file(filename)] *)
Definition _extract_file (self : ExtractWorker) (filename : string)
    (files : gmap string (list Byte.byte))
    : result unit * gmap string (list Byte.byte) :=
  match files !! filename with
  | None => (Raise (OtherError "IOError"), files)
  | Some data =>
      if is_zipfile data
      then extract_names (xfolder self) filename (namelist data) files
      else (Raise BadZipfile, files)
  end.

(** [ExtractWorker._secured_extract_file(filename)]: logs and raises again. *)
Definition _secured_extract_file (self : ExtractWorker) (filename : string)
    (files : gmap string (list Byte.byte))
    : result unit * gmap string (list Byte.byte) :=
  match _extract_file self filename files with
  | (Ok _, files') => (Ok tt, files')
  | (Raise e, files') => (Raise e, files')
  end.

(** [ExtractWorker.process(queue_item, counter_info)] *)
Definition process (self : ExtractWorker) (queue_item : string)
    (files : gmap string (list Byte.byte))
    : result unit * gmap string (list Byte.byte) :=
  _secured_extract_file self queue_item files.

End Handler.

(** *** A small instance: an archive is a list of one-letter members, each
    followed by one byte of content; the member [z] has a bad CRC, which
    shows when its target is open and still empty. *)

Definition demo_target (folder name : string) : string := folder +:+ "/" +:+ name.

Definition demo_name (b : Byte.byte) : string :=
  String (Ascii.ascii_of_byte b) EmptyString.

Fixpoint demo_members (data : list Byte.byte) : list (string * list Byte.byte) :=
  match data with
  | name :: content :: rest => (demo_name name, [content]) :: demo_members rest
  | _ => []
  end.

Definition demo_namelist (data : list Byte.byte) : list string :=
  (demo_members data).*1.

Definition demo_read_member (data : list Byte.byte) (name : string)
    : result (option (list Byte.byte)) :=
  if String.eqb name "z" then Raise BadZipfile
  else
    match list_find (λ m, m.1 = name) (demo_members data) with
    | Some (_, m) => Ok (Some m.2)
    | None => Raise (OtherError "KeyError")
    end.

Definition demo_written_before_error (data : list Byte.byte) (name : string)
    : option (list Byte.byte) :=
  if String.eqb name "z" then Some [] else None.

(** An archive with the members [a] and [b]. *)
Definition demo_archive : gmap string (list Byte.byte) :=
  {[ "tmp/N00E010.hgt.zip" := [Byte.x61; Byte.x01; Byte.x62; Byte.x02] ]}.


End Extract.

(* ===================================================================== *)
(** ** The raster decoder: the file format and the block iterator *)
(* ===================================================================== *)

Module HgtBlocks.
Import Hgt.

(** What [struct.pack('>h', v)] writes: the inverse of [unpack_h], used to
    say what a file holds. *)
Definition byte_of (z : Z) : Byte.byte :=
  default Byte.x00 (Byte.of_N (Z.to_N z)).

Definition pack_h (v : Z) : list Byte.byte :=
  let u := v mod 65536 in
  [byte_of (u / 256); byte_of (u mod 256)].

(** A 16-bit sample. *)
Definition int16 (v : Z) : Prop := -32768 ≤ v ≤ 32767.

(** The file of a raster with the given samples, row by row. *)
Definition hgt_file (samples : list Z) : list Byte.byte := samples ≫= pack_h.

(** How [get_value] reports a sample: [None] for the void value. *)
Definition elevation (v : Z) : option Z :=
  if v =? -32768 then None else Some v.

(** The elevation at an index of the raster with the given samples. *)
Definition sample_at (samples : list Z) (idx : Z) : option Z :=
  elevation (default 0 (samples !! Z.to_nat idx)).

(** [range(start, stop, step)] for [step <> 0], as the loop it is:
    [fuel] bounds the number of turns. *)
Fixpoint range_from (fuel : nat) (start stop step : Z) : list Z :=
  match fuel with
  | O => []
  | S fuel =>
      if (if 0 <? step then start <? stop else stop <? start)
      then start :: range_from fuel (start + step) stop step
      else []
  end.

(** [range(start, stop, step)]: [None] is the ValueError for [step = 0].
    As [|step| >= 1], the range has at most [|stop - start|] elements. *)
Definition py_range (start stop step : Z) : option (list Z) :=
  if step =? 0 then None
  else Some (range_from (Z.to_nat (Z.abs (stop - start))) start stop step).

(** [range(start, stop)] *)
Definition py_range2 (start stop : Z) : list Z :=
  range_from (Z.to_nat (stop - start)) start stop 1.

(** A loop that appends what it reads, and raises at the first failing read. *)
Fixpoint read_all {A} (reads : list (read A)) : read (list A) :=
  match reads with
  | [] => Got []
  | ReadFails :: _ => ReadFails
  | Got a :: rest =>
      match read_all rest with
      | Got l => Got (a :: l)
      | ReadFails => ReadFails
      end
  end.

(** [HgtSampleIterator(parser, width, height)] *)
Record HgtSampleIterator := mkSampleIterator {
  s_parser : HgtParser;
  s_width : Z;
  s_height : Z
}.

(** [HgtSampleIterator._read_line(col_idx, line_idx)] *)
Definition _read_line (it : HgtSampleIterator) (col_idx line_idx : Z)
    : read (list (option Z)) :=
  let p := s_parser it in
  read_all ((λ idx, get_value p (get_idx p idx line_idx))
            <$> py_range2 col_idx (Z.min (sample_lng p) (col_idx + s_width it))).

(** [HgtSampleIterator._get_square_values(top_left_col_idx, top_left_line_idx)] *)
Definition _get_square_values (it : HgtSampleIterator)
    (top_left_col_idx top_left_line_idx : Z) : read (list (list (option Z))) :=
  let p := s_parser it in
  read_all ((λ idx, _read_line it top_left_col_idx idx)
            <$> py_range2 top_left_line_idx
                  (Z.min (sample_lat p) (top_left_line_idx + s_height it))).

(** [HgtSampleIterator.__iter__()]: what the generator delivers, block after
    block.  A [range] with step 0 raises where it is evaluated: the outer one
    at once, the inner one in the first turn of the outer loop. *)
Definition sample_blocks (it : HgtSampleIterator)
    : list (read (list (list (option Z)))) :=
  let p := s_parser it in
  match py_range 0 (sample_lat p) (s_height it) with
  | None => [ReadFails]
  | Some lines =>
      match py_range 0 (sample_lng p) (s_width it) with
      | None => match lines with [] => [] | _ :: _ => [ReadFails] end
      | Some cols =>
          lines ≫= λ top_left_line_idx,
            (λ top_left_col_idx,
               _get_square_values it top_left_col_idx top_left_line_idx) <$> cols
      end
  end.

(** What the value iterator is to deliver on the file of a raster, turn
    after turn. *)
Definition raster_yields {Square} (shift : HgtParser → Z → Z → Square)
    (p : HgtParser) (samples : list Z) : list (yielded Square) :=
  (λ k, let idx := Z.of_nat k in
        let line := idx / sample_lng p in
        let col := idx mod sample_lng p in
        mkYielded (line + 1) (col + 1) idx (shift p line col)
          (sample_at samples idx))
  <$> seq 0 (length samples).

(** The block of the raster whose top left corner is at line [T] and column
    [C], and the blocks in the order of the block iterator. *)
Definition raster_block (samples : list Z) (lat lng width height T C : Z)
    : list (list (option Z)) :=
  (λ l, (λ c, sample_at samples (l * lng + c))
        <$> py_range2 C (Z.min lng (C + width)))
  <$> py_range2 T (Z.min lat (T + height)).

Definition raster_blocks (samples : list Z) (lat lng width height : Z)
    : list (list (list (option Z))) :=
  range_from (Z.to_nat (Z.abs (lat - 0))) 0 lat height ≫= λ T,
    raster_block samples lat lng width height T
    <$> range_from (Z.to_nat (Z.abs (lng - 0))) 0 lng width.

(** A raster of 3 lines of 3 samples, with a void value in the middle. *)
Definition demo_raster : list Z := [1; 2; 3; 4; -32768; 6; 7; 8; 9].

End HgtBlocks.

(* ===================================================================== *)
(** ** The import stage: the choice of the iterator *)
(* ===================================================================== *)

Module ImportIterator.
Import Hgt HgtBlocks.

(** The fields of [ImportWorker] that choose the iterator; [samples] is the
    pair [(sample_with, sample_height)], each an integer or [None]. *)
Record ImportWorker := mkImportWorker {
  use_raster : bool;
  sample_with : option Z;
  sample_height : option Z
}.

(** [x or y] on an integer or [None]: [None] and [0] are false. *)
Definition py_or (x : option Z) (y : Z) : Z :=
  match x with
  | Some v => if v =? 0 then y else v
  | None => y
  end.

(** What [_get_iterator] returns. *)
Inductive hgt_iterator :=
| SampleIterator (it : HgtSampleIterator)
| ValueIterator (p : HgtParser).

(** [ImportWorker._get_iterator(parser)] *)
Definition _get_iterator (self : ImportWorker) (p : HgtParser) : hgt_iterator :=
  if use_raster self then
    let width := py_or (sample_with self) (sample_lng p) in
    let height := py_or (sample_height self) (sample_lat p) in
    SampleIterator (mkSampleIterator p width height)
  else ValueIterator p.

End ImportIterator.

(* ===================================================================== *)
(** ** Properties of the worker pool *)
(* ===================================================================== *)

Module PoolProps.
Import Pool.

(** Splits [step e st = Some st'] into the cases of the step functions. *)
Ltac step_cases H :=
  unfold step, worker_step, main_step, interrupt_step, increment in H;
  repeat match type of H with
  | context [match ?x with _ => _ end] => destruct x eqn:?
  end;
  try discriminate H; injection H as <-.

Ltac pool_simpl :=
  unfold dequeued, processed, failed, was_interrupted, pool_exceptions, any_alive,
    record, set_worker, set_queue, set_main, set_stop, set_counter, set_unfinished in *;
  cbn [queue unfinished_tasks pcounter stop_event workers main history
       counter max incr] in *;
  rewrite ?omap_app, ?fmap_app, ?existsb_app, ?List.filter_app, ?length_app in *;
  cbn [omap list_omap dequeue_of processed_of failed_of fmap list_fmap snd
       existsb List.filter is_interrupt is_pool_exception length
       held awaiting_increment in_handler orb] in *;
  rewrite ?app_nil_r, ?orb_false_r, ?Nat.add_0_r in *.


Section Lists.
Context {A B : Type}.
Implicit Types (l : list A) (f : A → list B).

(** Replacing one element of a list moves its contribution to a [bind]. *)
Lemma bind_insert_perm f l i x y :
  l !! i = Some x →
  (<[i:=y]> l ≫= f) ++ f x ≡ₚ (l ≫= f) ++ f y.
Proof.
  intros Hi.
  assert (i < length l)%nat by eauto using lookup_lt_Some.
  rewrite insert_take_drop by done.
  rewrite <- (take_drop_middle l i x Hi) at 3.
  rewrite !bind_app, !bind_cons.
  solve_Permutation.
Qed.

Lemma bind_insert_same f l i x y :
  l !! i = Some x → f x = f y → <[i:=y]> l ≫= f ≡ₚ l ≫= f.
Proof.
  intros Hi Hf. pose proof (bind_insert_perm f l i x y Hi) as HP.
  rewrite Hf in HP. by apply (inj (.++ f y)) in HP.
Qed.

Lemma imap_insert_perm (g : nat → A → list B) l i x y :
  l !! i = Some x →
  mjoin (imap g (<[i:=y]> l)) ++ g i x ≡ₚ mjoin (imap g l) ++ g i y.
Proof.
  revert g i. induction l as [|a l IH]; intros g i Hi; [done|].
  destruct i as [|i]; simplify_eq/=.
  - etrans; [apply Permutation_app_comm|].
    rewrite <- app_assoc. f_equiv. apply Permutation_app_comm.
  - rewrite <- !app_assoc. f_equiv. exact (IH (g ∘ S) i Hi).
Qed.

Lemma imap_insert_same (g : nat → A → list B) l i x y :
  l !! i = Some x → g i x = g i y →
  mjoin (imap g (<[i:=y]> l)) ≡ₚ mjoin (imap g l).
Proof.
  intros Hi Hg. pose proof (imap_insert_perm g l i x y Hi) as HP.
  rewrite Hg in HP. by apply (inj (.++ g i y)) in HP.
Qed.

Lemma elem_of_insert_inv l i x y : x ∈ <[i:=y]> l → x = y ∨ x ∈ l.
Proof.
  intros [j Hj]%list_elem_of_lookup.
  destruct (decide (i = j)) as [->|Hne].
  - destruct (decide (j < length l)%nat).
    + rewrite list_lookup_insert_eq in Hj by done. left. congruence.
    + rewrite list_insert_ge in Hj by lia. right. eauto using list_elem_of_lookup_2.
  - rewrite list_lookup_insert_ne in Hj by done. right.
    eauto using list_elem_of_lookup_2.
Qed.

Lemma elem_of_insert_other l i x y z :
  l !! i = Some x → z ∈ l → z ≠ x → z ∈ <[i:=y]> l.
Proof.
  intros Hi [j Hj]%list_elem_of_lookup Hne.
  apply list_elem_of_lookup. exists j.
  rewrite list_lookup_insert_ne; [done|]. intros ->. congruence.
Qed.

End Lists.

Section Invariant.
Context {Item : Type}.
Implicit Types (st : pool Item) (w : wpc Item) (items : list Item).

Lemma imap_nothing {B} (g : nat → wpc Item → list B) w n :
  (∀ i, g i w = []) → mjoin (imap g (replicate n w)) = [].
Proof.
  revert g. induction n as [|n IH]; intros g Hg; [done|].
  cbn. rewrite Hg. apply IH. intros i. apply Hg.
Qed.

Lemma started_inv size items : pool_inv size items (started size items).
Proof.
  split; cbn; try done.
  - by rewrite length_replicate.
  - intros j w [-> _]%lookup_replicate. split; [lia|done].
  - unfold in_flight. by rewrite imap_nothing.
  - by left.
  - intros [? _]%elem_of_replicate. done.
  - repeat split. induction (Z.to_nat size); cbn in *; auto.
Qed.

Lemma step_inv_size size items e st st' :
  step e st = Some st' → pool_inv size items st →
  length (workers st') = Z.to_nat size.
Proof.
  intros H [Hsz _ _ _ _ _ _ _ _]. step_cases H; pool_simpl;
    rewrite ?length_insert; done.
Qed.

Lemma existsb_isAlive_false (ws : list (wpc Item)) :
  existsb isAlive ws = false → WNotStarted ∉ ws →
  Forall (λ w, w = WStopped) ws.
Proof.
  induction ws as [|w ws IH]; [constructor|].
  cbn. intros [Hw Hws]%orb_false_elim Hnot.
  apply not_elem_of_cons in Hnot as [? ?].
  constructor; [|by apply IH]. by destruct w.
Qed.

Lemma step_inv_threads size items e st st' :
  step e st = Some st' → pool_inv size items st → threads_ok st'.
Proof.
  intros H [_ Ht _ _ _ _ _ _ _]. unfold threads_ok in *.
  step_cases H; pool_simpl.
  all: try match goal with H : main _ = _ |- _ => rewrite H in Ht end.
  all: try done.
  all: try match goal with
    | H : Forall _ (workers _), Hw : workers _ !! _ = Some _ |- _ =>
        by pose proof (Forall_lookup_1 _ _ _ _ H Hw)
    | H : Forall _ (workers _) ∧ _, Hw : workers _ !! _ = Some _ |- _ =>
        by pose proof (Forall_lookup_1 _ _ _ _ (proj1 H) Hw)
    end.
  all: try (match goal with |- context [main ?s] =>
    destruct (main s) as [k| | | | |[]] eqn:Hm; try done end).
  all: try match goal with
    | H : Forall _ (workers _), Hw : workers _ !! _ = Some _ |- _ =>
        by pose proof (Forall_lookup_1 _ _ _ _ H Hw)
    | H : Forall _ (workers _) ∧ _, Hw : workers _ !! _ = Some _ |- _ =>
        by pose proof (Forall_lookup_1 _ _ _ _ (proj1 H) Hw)
    end.
  all: try (intros [?|?]%elem_of_insert_inv; done).
  all: try (intros j w0 Hj;
    match goal with Hw : workers _ !! ?i = Some ?w |- _ =>
      destruct (decide (i = j)) as [->|Hne];
      [ rewrite list_lookup_insert_eq in Hj by eauto using lookup_lt_Some;
        injection Hj as <-; split; [done|];
        intros Hle; by pose proof (proj2 (Ht _ _ Hw) Hle)
      | rewrite list_lookup_insert_ne in Hj by done; by apply Ht ]
    end).
  - (* start() of worker k *)
    intros j w0 Hj. destruct (decide (k = j)) as [->|Hne].
    + rewrite list_lookup_insert_eq in Hj by eauto using lookup_lt_Some.
      injection Hj as <-. split; [done|lia].
    + rewrite list_lookup_insert_ne in Hj by done.
      destruct (Ht _ _ Hj) as [Hlt Hge].
      split; intros; [apply Hlt; lia|apply Hge; lia].
  - (* the for loop is over *)
    intros [j Hj]%list_elem_of_lookup.
    destruct (Ht _ _ Hj) as [Hlt _]. apply Hlt; [|done].
    apply lookup_lt_Some in Hj.
    match goal with H : workers _ !! _ = None |- _ => apply lookup_ge_None in H end.
    lia.
  - by apply existsb_isAlive_false.
Qed.

Lemma step_inv_fifo size items e st st' :
  step e st = Some st' → pool_inv size items st →
  items = (dequeued st').*2 ++ queue st'.
Proof.
  intros H [_ _ Hf _ _ _ _ _ _]. step_cases H; pool_simpl; try done.
  all: try match goal with Hq : queue _ = _ |- _ => rewrite Hq end.
  all: rewrite ?app_nil_r, <- ?app_assoc; done.
Qed.

Lemma step_inv_flow size items e st st' :
  step e st = Some st' → pool_inv size items st →
  dequeued st' ≡ₚ in_flight (workers st') ++ processed st' ++ failed st'.
Proof.
  intros H [_ Ht _ Hf _ _ _ _ _]. unfold in_flight in *.
  step_cases H; pool_simpl; try done.
  all: try match goal with
    | Hw : workers _ !! ?i = Some ?w |- context [<[?i:=?w']> _] =>
        by rewrite (imap_insert_same held_by _ i w w' Hw)
    end.
  all: try match goal with
    | Hw : workers _ !! ?i = Some ?w |- context [<[?i:=?w']> _] =>
        pose proof (imap_insert_perm held_by _ i w w' Hw) as HP; cbn in HP;
        rewrite ?app_nil_r in HP
    end.
  all: try (rewrite Hf; rewrite ?HP; solve_Permutation).
  all: try (rewrite Hf, <- HP; solve_Permutation).
  (* start() of worker k: it held nothing *)
  unfold threads_ok in Ht.
  match goal with Hm : main _ = MStarting _ |- _ => rewrite Hm in Ht end.
  match goal with Hw : workers _ !! ?k = Some ?w |- _ =>
    pose proof (proj2 (Ht _ _ Hw) (le_n _)) as ->;
    by rewrite (imap_insert_same held_by _ k WNotStarted WLoopTop Hw)
  end.
Qed.

(** While [start] is launching threads, the thread it launches next has gone
    nowhere yet. *)
Lemma starting_not_started st k w :
  threads_ok st → main st = MStarting k → workers st !! k = Some w →
  w = WNotStarted.
Proof.
  unfold threads_ok. intros Ht Hm Hw. rewrite Hm in Ht.
  exact (proj2 (Ht _ _ Hw) (le_n _)).
Qed.

Lemma step_inv_failed size items e st st' :
  step e st = Some st' → pool_inv size items st →
  failed st' = [] ∨ stop_event st' = true ∨ WSetStop ∈ workers st'.
Proof.
  intros H [_ Ht _ _ Hf _ _ _ _]. step_cases H; pool_simpl; try done.
  all: try (right; left; done).
  all: try (right; right; apply list_elem_of_insert; eauto using lookup_lt_Some; done).
  all: destruct Hf as [Hf|[Hf|Hf]]; [by left|by right; left|right; right].
  all: try done.
  all: try match goal with Hw : workers _ !! _ = Some _ |- _ =>
         by (eapply elem_of_insert_other; [exact Hw|exact Hf|done]) end.
  match goal with Hw : workers _ !! _ = Some _, Hm : main _ = _ |- _ =>
    rewrite (starting_not_started _ _ _ Ht Hm Hw) in Hw;
    eapply elem_of_insert_other; [exact Hw|exact Hf|done]
  end.
Qed.

Lemma step_inv_stopped size items e st st' :
  step e st = Some st' → pool_inv size items st →
  WStopped ∈ workers st' → queue st' = [] ∨ stop_event st' = true.
Proof.
  intros H [_ _ _ _ _ Hs _ _ _] Hin. step_cases H; pool_simpl.
  all: try (by right).
  all: try (by left).
  all: try (apply elem_of_insert_inv in Hin as [?|Hin]; [done|]).
  all: destruct (Hs Hin) as [Hq|Hq]; try congruence; auto.
Qed.

Lemma step_inv_counter size items e st st' :
  step e st = Some st' → pool_inv size items st →
  incr (pcounter st') = 1 ∧ max (pcounter st') = Z.of_nat (length items) ∧
  counter (pcounter st') + Z.of_nat (length (workers st' ≫= awaiting_increment))
  = Z.of_nat (length (dequeued st')).
Proof.
  intros H [_ Ht _ _ _ _ (Hi & Hm & Hc) _ _].
  step_cases H; pool_simpl; try done.
  all: split; [done|split; [done|]].
  all: match goal with
    | Hw : workers _ !! ?i = Some ?w |- context [<[?i:=?w']> _] =>
        try (match goal with Hmain : main _ = MStarting _ |- _ =>
          rewrite (starting_not_started _ _ _ Ht Hmain Hw) in Hw end);
        pose proof (bind_insert_perm awaiting_increment _ i _ w' Hw) as HP;
        apply Permutation_length in HP; rewrite !length_app in HP; cbn in HP
    end.
  all: lia.
Qed.

Lemma step_inv_interrupt size items e st st' :
  step e st = Some st' → pool_inv size items st →
  was_interrupted st' = in_handler (main st').
Proof.
  intros H [_ _ _ _ _ _ _ Hi _]. step_cases H; pool_simpl; try done.
  all: try match goal with Hm : main _ = _ |- _ =>
         rewrite ?Hm; try rewrite Hm in Hi; cbn in Hi |- * end.
  all: rewrite ?Hi, ?orb_true_r; done.
Qed.

Lemma step_inv_exception size items e st st' :
  step e st = Some st' → pool_inv size items st →
  pool_exceptions st' =
    match main st' with MDone RaisedWorkerPoolException => 1%nat | _ => 0%nat end.
Proof.
  intros H [_ _ _ _ _ _ _ _ Hx]. step_cases H; pool_simpl; try done.
  all: try match goal with Hm : main _ = _ |- _ =>
         rewrite ?Hm; try rewrite Hm in Hx; cbn in Hx |- * end.
  all: rewrite ?Hx; try done; lia.
Qed.

(** Every step of a run keeps the invariant. *)
Lemma step_inv size items e st st' :
  step e st = Some st' → pool_inv size items st → pool_inv size items st'.
Proof.
  intros Hs Hi. split.
  - eapply step_inv_size; eauto.
  - eapply step_inv_threads; eauto.
  - eapply step_inv_fifo; eauto.
  - eapply step_inv_flow; eauto.
  - eapply step_inv_failed; eauto.
  - eapply step_inv_stopped; eauto.
  - eapply step_inv_counter; eauto.
  - eapply step_inv_interrupt; eauto.
  - eapply step_inv_exception; eauto.
Qed.

Lemma run_inv size items tr : ∀ st st',
  run tr st = Some st' → pool_inv size items st → pool_inv size items st'.
Proof.
  induction tr as [|e tr IH]; intros st st' Hr Hi; cbn in Hr.
  - by injection Hr as <-.
  - destruct (step e st) as [st1|] eqn:Hs; [|done].
    eauto using step_inv.
Qed.

Lemma reachable_inv size items tr st :
  run tr (started size items) = Some st → pool_inv size items st.
Proof. intros Hr. eapply run_inv; eauto using started_inv. Qed.


Lemma all_stopped_in_flight (ws : list (wpc Item)) :
  Forall (λ w, w = WStopped) ws → in_flight ws = [].
Proof.
  intros H. assert (ws = replicate (length ws) WStopped) as ->.
  { symmetry. apply replicate_as_Forall. split; [done|].
    eapply Forall_impl; [exact H|]. by intros w ->. }
  unfold in_flight. by apply imap_nothing.
Qed.


Lemma alive_worker (ws : list (wpc Item)) i w :
  ws !! i = Some w → isAlive w = true → existsb isAlive ws = true.
Proof.
  intros Hi Hw. apply existsb_exists. exists w. split; [|done].
  apply list_elem_of_In. eauto using list_elem_of_lookup_2.
Qed.

(** After a normal return of a pool with a worker, nothing is left in the
    queue. *)
Lemma returned_queue_empty size items st :
  1 ≤ size → pool_inv size items st → main st = MDone Returned →
  queue st = [].
Proof.
  intros Hsize [Hlen Hthreads _ _ _ Hstopped _ _ _] Hmain.
  unfold threads_ok in Hthreads. rewrite Hmain in Hthreads.
  destruct Hthreads as [Hall Hstop].
  assert (WStopped ∈ workers st) as Hin.
  { destruct (workers st) as [|w ws]; [cbn in Hlen; lia|].
    apply Forall_cons in Hall as [-> _]. left. }
  destruct (Hstopped Hin); [done|congruence].
Qed.

Lemma step_idle size items e st st' :
  step e st = Some st' → pool_inv size items st →
  idle items st → idle items st'.
Proof.
  intros H [_ _ _ _ _ _ _ Hint _] (Hw & Hq & Hd & Hp & Hf & Hs).
  unfold idle. step_cases H; pool_simpl.
  all: try match goal with Hl : workers _ !! _ = Some _ |- _ =>
         by rewrite Hw, lookup_nil in Hl end.
  all: try match goal with Hm : main _ = _ |- _ =>
         rewrite Hm in Hint; cbn in Hint end.
  all: repeat split; try done.
  all: intros Hst; rewrite ?orb_true_r, ?orb_false_r; auto; congruence.
Qed.

Lemma run_idle size items tr : ∀ st st',
  run tr st = Some st' → pool_inv size items st →
  idle items st → idle items st'.
Proof.
  induction tr as [|e tr IH]; intros st st' Hr Hi Hidle; cbn in Hr.
  - by injection Hr as <-.
  - destruct (step e st) as [st1|] eqn:Hs; [|done].
    eauto using step_inv, step_idle.
Qed.

End Invariant.

Section Claims.
Context {Item : Type}.
Implicit Types (st : pool Item) (w : wpc Item) (items : list Item).

(** C1.  For every pool size >= 1 and every list of items: when [start()]
    returns normally, the queue is empty, the items were dequeued in the
    order [fill] put them, every dequeue is matched by exactly one completed
    [process] call of the worker that dequeued the item, and no call failed;
    so the processed items are the enqueued items, each once. *)
Theorem start_returned_every_item_processed_once size items tr st :
  1 ≤ size →
  run tr (started size items) = Some st →
  main st = MDone Returned →
  queue st = [] ∧
  (dequeued st).*2 = items ∧
  processed st ≡ₚ dequeued st ∧
  (processed st).*2 ≡ₚ items ∧
  failed st = [].
Proof.
  intros Hsize Hrun Hmain.
  pose proof (reachable_inv _ _ _ _ Hrun) as Hinv.
  pose proof (returned_queue_empty _ _ _ Hsize Hinv Hmain) as Hq.
  destruct Hinv as [_ Hthreads Hfifo Hflow Hfailed _ _ _ _].
  unfold threads_ok in Hthreads. rewrite Hmain in Hthreads.
  destruct Hthreads as [Hall Hstop].
  assert (failed st = []) as Hnofail.
  { destruct Hfailed as [?|[?|Hset]]; [done|congruence|].
    apply list_elem_of_lookup in Hset as [j Hj].
    by pose proof (Forall_lookup_1 _ _ _ _ Hall Hj). }
  rewrite all_stopped_in_flight, Hnofail, app_nil_r in Hflow by done.
  cbn in Hflow. rewrite Hq, app_nil_r in Hfifo.
  repeat split; try done.
  by rewrite <- Hflow, <- Hfifo.
Qed.

(** The history records an interruption exactly when the schedule delivers
    one. *)
Lemma step_was_interrupted e st st' :
  step e st = Some st' →
  was_interrupted st'
  = was_interrupted st || match e with EvInterrupt => true | _ => false end.
Proof.
  intros H. step_cases H; pool_simpl; by rewrite ?orb_false_r, ?orb_true_r.
Qed.

Lemma run_was_interrupted tr : ∀ st st',
  run tr st = Some st' →
  was_interrupted st' = true ↔ was_interrupted st = true ∨ EvInterrupt ∈ tr.
Proof.
  induction tr as [|e tr IH]; intros st st' Hr; cbn in Hr.
  - injection Hr as <-. rewrite elem_of_nil. tauto.
  - destruct (step e st) as [st1|] eqn:Hs; [|done].
    rewrite (IH _ _ Hr), (step_was_interrupted _ _ _ Hs), elem_of_cons.
    rewrite orb_true_iff. destruct e; intuition congruence.
Qed.

(** C3.  When [start()] is over: it raised [WorkerPoolException] exactly once
    or not at all; it raised KeyboardInterrupt exactly when the schedule
    delivered an interruption to it, and the history shows an interruption in
    exactly these runs; and in a run without interruption all workers have
    stopped, it raised [WorkerPoolException] if and only if the stop event is
    set, and returned normally if and only if it is clear - whatever the
    number of workers that failed. *)
Theorem start_raises_iff_stop_event_set size items tr st r :
  run tr (started size items) = Some st →
  main st = MDone r →
  pool_exceptions st
    = match r with RaisedWorkerPoolException => 1%nat | _ => 0%nat end ∧
  (EvInterrupt ∈ tr ↔ r = RaisedKeyboardInterrupt) ∧
  (was_interrupted st = true ↔ r = RaisedKeyboardInterrupt) ∧
  (EvInterrupt ∉ tr →
     Forall (λ w, w = WStopped) (workers st) ∧
     (r = RaisedWorkerPoolException ↔ stop_event st = true) ∧
     (r = Returned ↔ stop_event st = false)) ∧
  (was_interrupted st = false →
     Forall (λ w, w = WStopped) (workers st) ∧
     (r = RaisedWorkerPoolException ↔ stop_event st = true) ∧
     (r = Returned ↔ stop_event st = false)).
Proof.
  intros Hrun Hmain.
  pose proof (run_was_interrupted _ _ _ Hrun) as Htr.
  assert (was_interrupted (started size items) = false) as H0 by done.
  rewrite H0 in Htr.
  destruct (reachable_inv _ _ _ _ Hrun) as [_ Hthreads _ _ _ _ _ Hint Hexc].
  unfold threads_ok in Hthreads.
  rewrite Hmain in Hthreads, Hint, Hexc.
  assert (EvInterrupt ∈ tr ↔ was_interrupted st = true) as Hev
    by (rewrite Htr; intuition congruence).
  assert (was_interrupted st = false →
     Forall (λ w, w = WStopped) (workers st) ∧
     (r = RaisedWorkerPoolException ↔ stop_event st = true) ∧
     (r = Returned ↔ stop_event st = false)) as Hquiet.
  { rewrite Hint. destruct r; cbn in *; [| |done];
      destruct Hthreads as [Hall Hstop]; rewrite Hstop; by repeat split. }
  split; [done|]. split_and!.
  - rewrite Hev, Hint. by destruct r.
  - rewrite Hint. by destruct r.
  - intros Hno. apply Hquiet.
    destruct (was_interrupted st); [|done]. destruct Hno. by apply Hev.
  - exact Hquiet.
Qed.


(** C10.  A pool built with [size = 0] is accepted and has no worker.  With
    any items in the queue, the schedule in which the main thread alone runs
    ends in a normal return; and in every run nothing is ever dequeued or
    processed, and a run without interruption never sets the stop event, so
    [start()] can only end by returning normally. *)
Theorem size_zero_pool_returns_without_processing items :
  workers (WorkerPool_init (Item:=Item) 0) = [] ∧
  (∃ st, run [EvMain; EvMain; EvMain] (started 0 items) = Some st ∧
         main st = MDone Returned ∧ queue st = items ∧ processed st = []) ∧
  (∀ tr st, run tr (started 0 items) = Some st →
     queue st = items ∧ dequeued st = [] ∧ processed st = [] ∧ failed st = [] ∧
     (was_interrupted st = false →
        stop_event st = false ∧ ∀ r, main st = MDone r → r = Returned)).
Proof.
  split; [done|]. split.
  { eexists. split; [reflexivity|]. done. }
  intros tr st Hrun.
  pose proof (reachable_inv _ _ _ _ Hrun) as Hinv.
  assert (idle items st) as (Hw & Hq & Hd & Hp & Hf & Hs).
  { eapply run_idle; [exact Hrun|apply started_inv|]. by repeat split. }
  destruct Hinv as [_ Hthreads _ _ _ _ _ Hint _].
  split; [done|]. split; [done|]. split; [done|]. split; [done|].
  intros Hnot.
  assert (stop_event st = false) as Hclear.
  { destruct (stop_event st); [|done]. rewrite Hs in Hnot; done. }
  split; [done|].
  intros r Hmain. unfold threads_ok in Hthreads.
  rewrite Hmain in Hthreads, Hint. destruct r; cbn in *; [done| |congruence].
  destruct Hthreads as [_ Hstop]. congruence.
Qed.

(** Once the stop event is set it stays set, and worker [i] can take at most
    the one item it is already committed to. *)
Lemma step_after_stop i e st st' :
  stop_event st = true → step e st = Some st' →
  stop_event st' = true ∧
  (dequeues_by i st' + committed (workers st' !! i)
   ≤ dequeues_by i st + committed (workers st !! i))%nat.
Proof.
  intros Hstop H. unfold dequeues_by.
  step_cases H; pool_simpl; try done.
  all: split; [done|].
  all: try match goal with
    | Hw : workers _ !! ?j = Some _ |- context [<[?j:=_]> _] =>
        destruct (decide (j = i)) as [->|Hne];
        [ rewrite list_lookup_insert_eq by eauto using lookup_lt_Some;
          try rewrite Hw
        | rewrite list_lookup_insert_ne by done ]
    end.
  all: cbn [committed fst]; rewrite ?Nat.eqb_refl; cbn [length]; try lia.
  all: try match goal with |- context [Nat.eqb ?a ?b] =>
         destruct (Nat.eqb_spec a b); [done|cbn [length]; lia] end.
  all: destruct (workers _ !! i) as [[]|]; cbn; lia.
Qed.

Lemma run_after_stop i tr : ∀ st st',
  stop_event st = true → run tr st = Some st' →
  stop_event st' = true ∧
  (dequeues_by i st' + committed (workers st' !! i)
   ≤ dequeues_by i st + committed (workers st !! i))%nat.
Proof.
  induction tr as [|e tr IH]; intros st st' Hstop Hr; cbn in Hr.
  - injection Hr as <-. split; [done|lia].
  - destruct (step e st) as [st1|] eqn:Hs; [|done].
    destruct (step_after_stop i _ _ _ Hstop Hs) as [Hstop1 Hle1].
    destruct (IH _ _ Hstop1 Hr) as [Hstop' Hle']. split; [done|lia].
Qed.

(** C5 (as amended).  From any state in which the stop event is set, and along
    any schedule: the stop event stays set, and every worker dequeues at most
    one more item - none at all unless it had already passed the test at the
    top of its loop and stood before [queue.get()] when the event was set. *)
Theorem after_stop_at_most_one_more_dequeue i tr st st' :
  stop_event st = true → run tr st = Some st' →
  stop_event st' = true ∧
  (dequeues_by i st' ≤ dequeues_by i st + committed (workers st !! i))%nat ∧
  (workers st !! i ≠ Some WGet → dequeues_by i st' = dequeues_by i st).
Proof.
  intros Hstop Hr.
  destruct (run_after_stop i _ _ _ Hstop Hr) as [Hstop' Hle].
  assert (dequeues_by i st ≤ dequeues_by i st')%nat as Hmono.
  { clear Hstop Hstop' Hle. revert st Hr.
    induction tr as [|e tr IH]; intros st Hr; cbn in Hr.
    - by injection Hr as <-.
    - destruct (step e st) as [st1|] eqn:Hs; [|done].
      etrans; [|by apply IH]. clear IH Hr. unfold dequeues_by.
      step_cases Hs; pool_simpl; lia. }
  split; [done|]. split; [lia|].
  intros Hnot. destruct (workers st !! i) as [[]|]; cbn in Hle; try lia.
  done.
Qed.

Lemma step_waiting_on_blocked i n e st st' :
  waiting_on_blocked i (count_interrupts (e :: []) + n) st →
  step e st = Some st' →
  waiting_on_blocked i n st'.
Proof.
  intros (Hq & Hi & Hm) H. unfold waiting_on_blocked.
  step_cases H; pool_simpl; try done.
  all: try congruence.
  all: try match goal with Hm' : main _ = _ |- _ => rewrite ?Hm'; rewrite Hm' in Hm end.
  all: cbn in Hm; try done.
  all: try match goal with
    | Hw : workers _ !! ?j = Some _ |- context [<[?j:=_]> _] =>
        rewrite list_lookup_insert_ne by congruence
    end.
  all: try (repeat split; try done; destruct (main _); try done; lia).
  all: try (repeat split; try done; lia).
  all: match goal with Hb : existsb isAlive _ = false |- _ =>
         by rewrite (alive_worker _ _ _ Hi) in Hb end.
Qed.

Lemma run_waiting_on_blocked i tr : ∀ st st',
  waiting_on_blocked i (count_interrupts tr) st →
  run tr st = Some st' →
  waiting_on_blocked i 0 st'.
Proof.
  induction tr as [|e tr IH]; intros st st' Hw Hr; cbn in Hr.
  - by injection Hr as <-.
  - destruct (step e st) as [st1|] eqn:Hs; [|done].
    apply (IH st1); [|done].
    eapply step_waiting_on_blocked; [|exact Hs].
    unfold count_interrupts in *. cbn in *.
    destruct e; cbn in *; exact Hw.
Qed.

End Claims.

(** *** The claims on concrete runs *)

(** C2 (fails on the code).  A pool of two workers, one item, a handler that
    returns: after [hang_schedule] worker 1 stands in [queue.get()] on an empty
    queue.  From there, whatever the schedule and even if [start()] is
    interrupted once (which sets the stop event), worker 1 never leaves
    [queue.get()] and [start()] neither returns nor raises. *)
Theorem start_hangs_after_lost_race :
  ∃ st0 : pool nat,
    run hang_schedule (started 2 [1%nat]) = Some st0 ∧
    ∀ tr st, (count_interrupts tr ≤ 1)%nat → run tr st0 = Some st →
      queue st = [] ∧ workers st !! 1%nat = Some WGet ∧ ∀ r, main st ≠ MDone r.
Proof.
  eexists. split; [vm_compute; reflexivity|].
  intros tr st Hn Hr.
  match type of Hr with run _ ?s = _ =>
    assert (waiting_on_blocked 1 (count_interrupts tr) s) as Hblocked
      by (split; [reflexivity|split; [reflexivity|exact Hn]])
  end.
  destruct (run_waiting_on_blocked 1 tr _ _ Hblocked Hr) as (Hq & Hw & Hm).
  repeat split; try done. intros r Hr'. by rewrite Hr' in Hm.
Qed.

(** C1, at work: two workers, two items, every handler call returns. *)
Lemma start_returned_witness :
  ∃ st : pool nat,
    run clean_schedule (started 2 [1%nat; 2%nat]) = Some st ∧
    main st = MDone Returned ∧
    queue st = [] ∧
    (dequeued st).*2 = [1%nat; 2%nat] ∧
    processed st ≡ₚ dequeued st ∧
    (processed st).*2 ≡ₚ [1%nat; 2%nat] ∧
    failed st = [].
Proof.
  eexists. split; [vm_compute; reflexivity|]. split; [reflexivity|].
  apply (start_returned_every_item_processed_once 2 [1%nat; 2%nat] clean_schedule);
    [lia|vm_compute; reflexivity|reflexivity].
Defined.

(** C3, at work.  Two handlers fail at the same time: one exception is
    raised.  And [start()] is interrupted while worker 0 holds an item: the
    interruption is raised again, not a [WorkerPoolException]. *)
Lemma start_raises_once_witness :
  (∃ st : pool nat,
     run both_fail_schedule (started 2 [1%nat; 2%nat]) = Some st ∧
     main st = MDone RaisedWorkerPoolException ∧
     length (failed st) = 2%nat ∧
     pool_exceptions st = 1%nat ∧
     (EvInterrupt ∈ both_fail_schedule ↔
        RaisedWorkerPoolException = RaisedKeyboardInterrupt) ∧
     (was_interrupted st = true ↔
        RaisedWorkerPoolException = RaisedKeyboardInterrupt) ∧
     (EvInterrupt ∉ both_fail_schedule →
        Forall (λ w, w = WStopped) (workers st) ∧
        (RaisedWorkerPoolException = RaisedWorkerPoolException
           ↔ stop_event st = true) ∧
        (RaisedWorkerPoolException = Returned ↔ stop_event st = false)) ∧
     (was_interrupted st = false →
        Forall (λ w, w = WStopped) (workers st) ∧
        (RaisedWorkerPoolException = RaisedWorkerPoolException
           ↔ stop_event st = true) ∧
        (RaisedWorkerPoolException = Returned ↔ stop_event st = false))) ∧
  (∃ st : pool nat,
     run PoolRun.interrupted_schedule (started 2 [1%nat; 2%nat]) = Some st ∧
     main st = MDone RaisedKeyboardInterrupt ∧
     EvInterrupt ∈ PoolRun.interrupted_schedule ∧
     pool_exceptions st = 0%nat ∧
     (EvInterrupt ∈ PoolRun.interrupted_schedule ↔
        RaisedKeyboardInterrupt = RaisedKeyboardInterrupt) ∧
     (was_interrupted st = true ↔
        RaisedKeyboardInterrupt = RaisedKeyboardInterrupt) ∧
     (EvInterrupt ∉ PoolRun.interrupted_schedule →
        Forall (λ w, w = WStopped) (workers st) ∧
        (RaisedKeyboardInterrupt = RaisedWorkerPoolException
           ↔ stop_event st = true) ∧
        (RaisedKeyboardInterrupt = Returned ↔ stop_event st = false)) ∧
     (was_interrupted st = false →
        Forall (λ w, w = WStopped) (workers st) ∧
        (RaisedKeyboardInterrupt = RaisedWorkerPoolException
           ↔ stop_event st = true) ∧
        (RaisedKeyboardInterrupt = Returned ↔ stop_event st = false))).
Proof.
  split.
  - eexists. split; [vm_compute; reflexivity|].
    split; [reflexivity|]. split; [reflexivity|].
    apply (start_raises_iff_stop_event_set 2 [1%nat; 2%nat] both_fail_schedule
             _ RaisedWorkerPoolException);
      [vm_compute; reflexivity|reflexivity].
  - eexists. split; [vm_compute; reflexivity|].
    split; [reflexivity|].
    split; [apply list_elem_of_lookup; by exists 6%nat|].
    apply (start_raises_iff_stop_event_set 2 [1%nat; 2%nat]
             PoolRun.interrupted_schedule _ RaisedKeyboardInterrupt);
      [vm_compute; reflexivity|reflexivity].
Defined.


(** C5 as stated fails: worker 1 passed the loop test before worker 0 set the
    stop event; it then dequeues item 2 - after the event was set - and
    processes it. *)
Lemma dequeued_after_stop_is_processed :
  ∃ st : pool nat,
    run (race_schedule ++ race_continuation) (started 2 [1%nat; 2%nat]) = Some st ∧
    history st =
      [HDequeue 0 1%nat; HFailed 0 1%nat; HStopSet;
       HDequeue 1 2%nat; HProcessed 1 2%nat] ∧
    (1%nat, 2%nat) ∈ dequeued_after_stop (history st) ∧
    (1%nat, 2%nat) ∈ processed st.
Proof.
  eexists. split; [vm_compute; reflexivity|]. split; [reflexivity|].
  split; cbn; apply list_elem_of_here.
Qed.

(** C5 as amended, at work on that run: when the event is set worker 1 is
    committed to one dequeue, and worker 0 to none. *)
Lemma after_stop_witness :
  ∃ st st' : pool nat,
    run race_schedule (started 2 [1%nat; 2%nat]) = Some st ∧
    run race_continuation st = Some st' ∧
    stop_event st = true ∧
    stop_event st' = true ∧
    (dequeues_by 1 st' ≤ dequeues_by 1 st + committed (workers st !! 1%nat))%nat ∧
    (workers st !! 1%nat ≠ Some WGet → dequeues_by 1 st' = dequeues_by 1 st).
Proof.
  eexists. eexists. split; [vm_compute; reflexivity|].
  split; [vm_compute; reflexivity|]. split; [reflexivity|].
  apply (after_stop_at_most_one_more_dequeue 1 race_continuation);
    [reflexivity|vm_compute; reflexivity].
Defined.


End PoolProps.

(* ===================================================================== *)
(** ** Properties of the download stage *)
(* ===================================================================== *)

Module DownloadProps.
Import Download.

Section Handler.
Variable path_join : string → string → string.
Variable md5_hexdigest : list Byte.byte → string.
Variable is_zipfile : list Byte.byte → bool.
Variable testzip : list Byte.byte → option string.

Local Abbreviation validate := (_validate_downloaded_file md5_hexdigest is_zipfile testzip).
Local Abbreviation exists_valid := (_file_exists md5_hexdigest is_zipfile testzip).
Local Abbreviation download := (_download_file path_join md5_hexdigest is_zipfile testzip).
Local Abbreviation secured := (_secured_download_file path_join md5_hexdigest is_zipfile testzip).
Local Abbreviation process := (Download.process path_join md5_hexdigest is_zipfile testzip).

(** The body of [_secured_download_file], as the source reads. *)
Lemma secured_unfold self url filename md5sum attempt exc_error w :
  secured self url filename md5sum attempt exc_error w =
    if decide (attempt ≤ max_attempt self)%nat then
      match download self url filename md5sum w with
      | (Ok _, w1) => (Ok tt, w1)
      | (Raise e, w1) =>
          if retried e then secured self url filename md5sum (S attempt) e w1
          else (Raise e, w1)
      end
    else (Raise exc_error, w).
Proof.
  rewrite _secured_download_file_unfold_eq.
  unfold _secured_download_file_unfold.
  destruct (le_lt_dec attempt (max_attempt self)) as [Hle|Hlt]; cbn.
  - rewrite decide_True by done.
    destruct (download self url filename md5sum w) as [[[]|e] w1]; cbn; [done|].
    by destruct (retried e).
  - rewrite decide_False by lia. done.
Qed.

Lemma transfer_calls chunks broken path : ∀ w r w',
  transfer chunks broken path w = (r, w') →
  calls w' = calls w ∧ opened w' = opened w.
Proof.
  induction chunks as [|data rest IH]; intros w r w' H; cbn in H.
  - destruct broken; injection H as <- <-; done.
  - destruct data as [|b data]; [injection H as <- <-; done|].
    destruct (stop_oracle w (polls w)); [injection H as <- <-; done|].
    apply IH in H as [-> ->]. done.
Qed.

(** Every invocation of [_download_file] is counted once, and opens at most
    one URL. *)
Lemma download_calls self url filename md5sum w r w' :
  download self url filename md5sum w = (r, w') →
  calls w' = S (calls w) ∧
  (opened w' = opened w ∨ opened w' = opened w ++ [url]).
Proof.
  unfold _download_file. intros H.
  destruct (exists_valid _ _ _); [injection H as <- <-; auto|].
  cbn in H. destruct (net _ _ _) as [e|chunks broken];
    [injection H as <- <-; auto|].
  destruct (transfer _ _ _ _) as [[[]|e] w2] eqn:Ht;
    apply transfer_calls in Ht as [Hc Ho]; injection H as <- <-;
    cbn in *; auto.
Qed.

(** C4.  With the worker as [__init__] builds it ([max_attempt = 3]): when
    three successive calls of [_download_file] each raise one of the retried
    exceptions (checksum invalid, bad zip file, URL error, HTTP error),
    [process] makes exactly these three calls and raises the error of the
    third; when a call raises any other error - the first call, the second
    after a retried error, or the third after two - [process] raises that
    error at once, with no further call.  The retried exceptions are exactly
    those four. *)
Theorem process_retries_three_times folder item :
  let self := DownloadWorker_init folder in
  let attempt := download self (url item) (zip item) (md5 item) in
  (∀ w0 w1 w2 w3 e1 e2 e3,
     attempt w0 = (Raise e1, w1) → retried e1 = true →
     attempt w1 = (Raise e2, w2) → retried e2 = true →
     attempt w2 = (Raise e3, w3) → retried e3 = true →
     process self item w0 = (Raise e3, w3) ∧ calls w3 = (calls w0 + 3)%nat) ∧
  (∀ w0 w1 e,
     attempt w0 = (Raise e, w1) → retried e = false →
     process self item w0 = (Raise e, w1) ∧ calls w1 = (calls w0 + 1)%nat) ∧
  (∀ w0 w1 w2 e1 e2,
     attempt w0 = (Raise e1, w1) → retried e1 = true →
     attempt w1 = (Raise e2, w2) → retried e2 = false →
     process self item w0 = (Raise e2, w2) ∧ calls w2 = (calls w0 + 2)%nat) ∧
  (∀ w0 w1 w2 w3 e1 e2 e3,
     attempt w0 = (Raise e1, w1) → retried e1 = true →
     attempt w1 = (Raise e2, w2) → retried e2 = true →
     attempt w2 = (Raise e3, w3) → retried e3 = false →
     process self item w0 = (Raise e3, w3) ∧ calls w3 = (calls w0 + 3)%nat) ∧
  (∀ e, retried e = true ↔
     e = InvalidCheckSumException ∨ e = BadZipfile ∨ e = URLError ∨ e = HTTPError).
Proof.
  intros self attempt. split; [|split; [|split; [|split]]].
  - intros w0 w1 w2 w3 e1 e2 e3 H1 R1 H2 R2 H3 R3. unfold Download.process.
    rewrite secured_unfold. cbn. fold attempt. rewrite H1, R1.
    rewrite secured_unfold. cbn. fold attempt. rewrite H2, R2.
    rewrite secured_unfold. cbn. fold attempt. rewrite H3, R3.
    rewrite secured_unfold. cbn. split; [done|].
    apply download_calls in H1 as [C1 _], H2 as [C2 _], H3 as [C3 _]. lia.
  - intros w0 w1 e H R. unfold Download.process.
    rewrite secured_unfold. cbn. fold attempt. rewrite H, R. split; [done|].
    apply download_calls in H as [C _]. lia.
  - intros w0 w1 w2 e1 e2 H1 R1 H2 R2. unfold Download.process.
    rewrite secured_unfold. cbn. fold attempt. rewrite H1, R1.
    rewrite secured_unfold. cbn. fold attempt. rewrite H2, R2.
    split; [done|].
    apply download_calls in H1 as [C1 _], H2 as [C2 _]. lia.
  - intros w0 w1 w2 w3 e1 e2 e3 H1 R1 H2 R2 H3 R3. unfold Download.process.
    rewrite secured_unfold. cbn. fold attempt. rewrite H1, R1.
    rewrite secured_unfold. cbn. fold attempt. rewrite H2, R2.
    rewrite secured_unfold. cbn. fold attempt. rewrite H3, R3.
    split; [done|].
    apply download_calls in H1 as [C1 _], H2 as [C2 _], H3 as [C3 _]. lia.
  - intros e. split.
    + destruct e; cbn; intros He; auto; discriminate He.
    + intros [->|[->|[->| ->]]]; reflexivity.
Qed.

(** C7.  When a file is at the destination and passes the validation with the
    item's checksum, [process] returns normally after one call of
    [_download_file] and leaves the world as it was: no URL is opened, no
    file is written. *)
Theorem process_skips_valid_file folder item w data :
  let self := DownloadWorker_init folder in
  let file_fullpath := path_join folder (zip item) in
  fs w !! file_fullpath = Some data →
  validate file_fullpath (md5 item) w = Ok tt →
  process self item w = (Ok tt, count_call w) ∧
  opened (count_call w) = opened w ∧
  fs (count_call w) = fs w.
Proof.
  intros self file_fullpath Hfile Hvalid. split; [|done].
  unfold Download.process. rewrite secured_unfold. cbn.
  unfold _download_file, _file_exists. cbn. fold file_fullpath.
  rewrite Hfile.
  change (validate file_fullpath (md5 item) (count_call w))
    with (validate file_fullpath (md5 item) w).
  by rewrite Hvalid.
Qed.


End Handler.

(** *** The claims on the small instance *)

Local Abbreviation demo_download :=
  (_download_file demo_join demo_md5 demo_is_zipfile demo_testzip).
Local Abbreviation demo_process :=
  (Download.process demo_join demo_md5 demo_is_zipfile demo_testzip).
Local Abbreviation demo_validate :=
  (_validate_downloaded_file demo_md5 demo_is_zipfile demo_testzip).

(** C4, at work.  A connection failure, then data that is no archive, then
    an HTTP error: [process] raises the HTTP error after three calls.  And a
    connection failure, then a read that times out: [process] raises the
    timeout after two calls, without a third. *)
Lemma process_retries_witness :
  let self := DownloadWorker_init "tmp" in
  let attempt := demo_download self (url demo_item) (zip demo_item) (md5 demo_item) in
  let w1 := (attempt demo_failing_world).2 in
  let w2 := (attempt w1).2 in
  let w3 := (attempt w2).2 in
  let u1 := (attempt demo_unexpected_world).2 in
  let u2 := (attempt u1).2 in
  (attempt demo_failing_world = (Raise URLError, w1) ∧
   attempt w1 = (Raise BadZipfile, w2) ∧
   attempt w2 = (Raise HTTPError, w3) ∧
   demo_process self demo_item demo_failing_world = (Raise HTTPError, w3) ∧
   calls w3 = (calls demo_failing_world + 3)%nat) ∧
  (attempt demo_unexpected_world = (Raise URLError, u1) ∧
   attempt u1 = (Raise (OtherError "socket.timeout"), u2) ∧
   demo_process self demo_item demo_unexpected_world
     = (Raise (OtherError "socket.timeout"), u2) ∧
   calls u2 = (calls demo_unexpected_world + 2)%nat).
Proof.
  intros self attempt w1 w2 w3 u1 u2.
  assert (attempt demo_failing_world = (Raise URLError, w1)) as H1
    by (vm_compute; reflexivity).
  assert (attempt w1 = (Raise BadZipfile, w2)) as H2
    by (vm_compute; reflexivity).
  assert (attempt w2 = (Raise HTTPError, w3)) as H3
    by (vm_compute; reflexivity).
  assert (attempt demo_unexpected_world = (Raise URLError, u1)) as U1
    by (vm_compute; reflexivity).
  assert (attempt u1 = (Raise (OtherError "socket.timeout"), u2)) as U2
    by (vm_compute; reflexivity).
  split.
  - split; [exact H1|]. split; [exact H2|]. split; [exact H3|].
    exact (proj1 (process_retries_three_times
             demo_join demo_md5 demo_is_zipfile demo_testzip "tmp" demo_item)
             demo_failing_world w1 w2 w3 URLError BadZipfile HTTPError
             H1 eq_refl H2 eq_refl H3 eq_refl).
  - split; [exact U1|]. split; [exact U2|].
    exact (proj1 (proj2 (proj2 (process_retries_three_times
             demo_join demo_md5 demo_is_zipfile demo_testzip "tmp" demo_item)))
             demo_unexpected_world u1 u2 URLError (OtherError "socket.timeout")
             U1 eq_refl U2 eq_refl).
Defined.

(** C7, at work: the archive is already there, the network is never used. *)
Lemma process_skips_witness :
  fs demo_resumed_world !! demo_join "tmp" (zip demo_item)
    = Some [Byte.x50; Byte.x4b] ∧
  demo_validate (demo_join "tmp" (zip demo_item)) (md5 demo_item) demo_resumed_world
    = Ok tt ∧
  demo_process (DownloadWorker_init "tmp") demo_item demo_resumed_world
    = (Ok tt, count_call demo_resumed_world) ∧
  opened (count_call demo_resumed_world) = opened demo_resumed_world ∧
  fs (count_call demo_resumed_world) = fs demo_resumed_world.
Proof.
  split; [vm_compute; reflexivity|]. split; [vm_compute; reflexivity|].
  apply (process_skips_valid_file demo_join demo_md5 demo_is_zipfile demo_testzip
           "tmp" demo_item demo_resumed_world [Byte.x50; Byte.x4b]);
    vm_compute; reflexivity.
Defined.



End DownloadProps.

(* ===================================================================== *)
(** ** Properties of the import stage *)
(* ===================================================================== *)

Module ImportProps.
Import Hgt ImportStage.

Example unpack_void : unpack_h [Byte.x80; Byte.x00] = Some (-32768).
Proof. reflexivity. Qed.

Example get_value_void (lat lng : Z) :
  get_value (mkParser demo_file lat lng) 1 = Got None.
Proof. reflexivity. Qed.

(** C9.  A raster source that reports 4 samples in total, over a raster of 4
    samples (any [sample_lat * sample_lng = 4]) whose file holds 10, -32768,
    20, 5, imported with the stop event never set: the manager receives
    exactly 4 inserts, whose elevation values are 10, None, 20, 5 in the
    order of the decoder, at the indices 0, 1, 2, 3 - however the generator
    ends. *)
Theorem import_four_samples {Square} (shift : HgtParser → Z → Z → Square)
    (lat lng : Z) (stop : nat → bool) (at_end : outcome) :
  lat * lng = 4 →
  (∀ k, stop k = false) →
  ∃ received : list (yielded Square),
    _execute_import (raster_source shift (mkParser demo_file lat lng) 4 at_end)
      stop []
      = (at_end, received, 4) ∧
    length received = 4%nat ∧
    y_value <$> received = [Some 10; None; Some 20; Some 5] ∧
    y_idx <$> received = [0; 1; 2; 3].
Proof.
  intros Hfour Hstop. eexists.
  unfold _execute_import, raster_source, HgtValueIterator. cbn.
  rewrite Hfour. change (Z.to_nat 4) with 4%nat. simpl.
  rewrite !Hstop. simpl.
  split; [reflexivity|]. by repeat split.
Qed.

(** C9, at work on a 2 x 2 raster. *)
Lemma import_four_samples_witness :
  ∃ received : list (yielded unit),
    _execute_import
      (raster_source (λ _ _ _, tt) (mkParser demo_file 2 2) 4 Completed)
      (λ _, false) []
      = (Completed, received, 4) ∧
    length received = 4%nat ∧
    y_value <$> received = [Some 10; None; Some 20; Some 5] ∧
    y_idx <$> received = [0; 1; 2; 3].
Proof.
  apply (import_four_samples (λ _ _ _, tt) 2 2 (λ _, false) Completed);
    [reflexivity|reflexivity].
Defined.

End ImportProps.

(* ===================================================================== *)
(** ** Further properties of the worker pool *)
(* ===================================================================== *)

Module PoolRunProps.
Import Pool PoolRun PoolProps.

Section Sums.
Context {A : Type}.

Lemma sum_insert (f : A → nat) (l : list A) i x y :
  l !! i = Some x →
  (sum_list (f <$> <[i:=y]> l) + f x = sum_list (f <$> l) + f y)%nat.
Proof.
  revert i. induction l as [|a l IH]; intros i Hi; [done|].
  destruct i as [|i].
  - injection Hi as ->. cbn. lia.
  - change (<[S i:=y]> (a :: l)) with (a :: <[i:=y]> l).
    rewrite !fmap_cons. specialize (IH i Hi).
    change (sum_list (f a :: ?k)) with (f a + sum_list k)%nat. lia.
Qed.

End Sums.

Section Run.
Context {Item : Type}.
Implicit Types (st : pool Item) (w : wpc Item) (items : list Item).

Ltac run_simpl :=
  unfold interrupts, effort, main_rank in *; pool_simpl.

Lemma started_run_facts size items : run_facts (started size items).
Proof.
  split; cbn; [|done].
  assert (replicate (Z.to_nat size) (WNotStarted (Item:=Item)) ≫= busy = []) as ->.
  { induction (Z.to_nat size) as [|n IH]; [done|]. exact IH. }
  cbn. lia.
Qed.

Lemma step_facts_unfinished size items e st st' :
  step e st = Some st' → pool_inv size items st → run_facts st →
  unfinished_tasks st'
  = (length (queue st') + length (workers st' ≫= busy) + length (failed st'))%nat.
Proof.
  intros H [_ Ht _ _ _ _ _ _ _] [Hu _].
  step_cases H; pool_simpl; try done.
  all: match goal with
    | Hw : workers _ !! ?i = Some ?w |- context [<[?i:=?w']> _] =>
        try (match goal with Hmain : main _ = MStarting _ |- _ =>
          rewrite (starting_not_started _ _ _ Ht Hmain Hw) in Hw end);
        pose proof (bind_insert_perm busy _ i _ w' Hw) as HP;
        apply Permutation_length in HP; rewrite !length_app in HP; cbn in HP
    end.
  all: try match goal with Hq : queue _ = _ |- _ =>
         rewrite ?Hq; try rewrite Hq in Hu end.
  all: cbn in *; lia.
Qed.

Lemma none_alive_no_step i o st :
  any_alive st = false → worker_step i o st = None.
Proof.
  unfold any_alive, worker_step. intros Hnone.
  destruct (workers st !! i) as [w|] eqn:Hw; [|done].
  destruct (isAlive w) eqn:Ha.
  - by rewrite (alive_worker _ _ _ Hw Ha) in Hnone.
  - by destruct w.
Qed.

Lemma step_facts_interrupts size items e st st' :
  step e st = Some st' → pool_inv size items st → run_facts st →
  match main st' with
  | MStarting _ | MWait | MCheck | MDone Returned
  | MDone RaisedWorkerPoolException => interrupts st' = 0%nat
  | MHandler | MWaitInterrupted => interrupts st' = 1%nat
  | MDone RaisedKeyboardInterrupt =>
      (2 ≤ interrupts st')%nat ∨ (interrupts st' = 1%nat ∧ any_alive st' = false)
  end.
Proof.
  intros H [_ Ht _ _ _ _ _ _ _] [_ Hi].
  destruct e as [i o| |].
  - (* a worker moves: the main thread and the interruptions stay *)
    assert (main st' = main st ∧ interrupts st' = interrupts st) as [-> ->].
    { unfold interrupts. step_cases H; pool_simpl; by rewrite ?Nat.add_0_r. }
    destruct (main st) as [| | | | |[]]; try done.
    destruct Hi as [?|[? Hnone]]; [by left|].
    cbn in H. by rewrite (none_alive_no_step _ _ _ Hnone) in H.
  - unfold interrupts in *. step_cases H; pool_simpl;
      try match goal with Hm : main _ = _ |- _ =>
            rewrite ?Hm; try rewrite Hm in Hi end;
      rewrite ?Nat.add_0_r; try done.
    right. split; [done|]. done.
  - unfold interrupts in *. unfold threads_ok in Ht.
    step_cases H; pool_simpl;
      try match goal with Hm : main _ = _ |- _ =>
            rewrite ?Hm; try rewrite Hm in Hi, Ht end;
      cbn [length]; try lia.
    right. split; [lia|].
    apply not_true_is_false. intros [w [Hin Ha]]%existsb_exists.
    apply list_elem_of_In in Hin.
    rewrite Forall_forall in Ht. rewrite (Ht _ Hin) in Ha. done.
Qed.

Lemma step_facts size items e st st' :
  step e st = Some st' → pool_inv size items st → run_facts st → run_facts st'.
Proof.
  intros Hs Hi Hf. split.
  - eapply step_facts_unfinished; eauto.
  - eapply step_facts_interrupts; eauto.
Qed.

Lemma run_keeps_facts size items tr : ∀ st st',
  run tr st = Some st' → pool_inv size items st → run_facts st →
  pool_inv size items st' ∧ run_facts st'.
Proof.
  induction tr as [|e tr IH]; intros st st' Hr Hi Hf; cbn in Hr.
  - by injection Hr as <-.
  - destruct (step e st) as [st1|] eqn:Hs; [|done].
    eauto using step_inv, step_facts.
Qed.

Lemma reachable_facts size items tr st :
  run tr (started size items) = Some st →
  pool_inv size items st ∧ run_facts st.
Proof.
  intros Hr. eapply run_keeps_facts; eauto using started_inv, started_run_facts.
Qed.

(** [queue.task_done()] never raises in a run: whenever a worker is about to
    call it the queue counts at least one unfinished task.  The count is
    always the number of items still queued, plus those a worker took and has
    not finished, plus those whose handler raised. *)
Theorem task_done_never_raises size items tr st :
  run tr (started size items) = Some st →
  unfinished_tasks st
  = (length (queue st) + length (workers st ≫= busy) + length (failed st))%nat ∧
  ∀ i, workers st !! i = Some WTaskDone → unfinished_tasks st ≠ 0%nat.
Proof.
  intros Hr. destruct (reachable_facts _ _ _ _ Hr) as [_ [Hu _]].
  split; [done|]. intros i Hi.
  pose proof (bind_insert_perm busy _ i _ WStopped Hi) as HP.
  apply Permutation_length in HP. rewrite !length_app in HP. cbn in HP. lia.
Qed.

(** A failure is never swallowed: when a handler raised and [start()] ends
    without having been interrupted, it ends with [WorkerPoolException]. *)
Theorem failure_ends_in_pool_exception size items tr st r :
  run tr (started size items) = Some st →
  main st = MDone r →
  failed st ≠ [] →
  was_interrupted st = false →
  r = RaisedWorkerPoolException.
Proof.
  intros Hr Hmain Hfailed Hnot.
  destruct (reachable_inv _ _ _ _ Hr) as [_ Ht _ _ Hf _ _ Hi _].
  unfold threads_ok in Ht. rewrite Hmain in Ht, Hi. rewrite Hnot in Hi.
  destruct r; cbn in *; [|done|done].
  destruct Ht as [Hall Hstop].
  destruct Hf as [?|[?|Hset]]; [done|congruence|].
  rewrite Forall_forall in Hall. by pose proof (Hall _ Hset).
Qed.

(** No item is handled twice, whatever happens in the run: the items handed
    to [process] (returned or raised) are handed to it by the worker that
    dequeued them, each dequeue at most once, and the dequeued items are the
    first items of the queue as [fill] left it. *)
Theorem no_item_handled_twice size items tr st :
  run tr (started size items) = Some st →
  processed st ++ failed st ⊆+ dequeued st ∧
  (dequeued st).*2 `prefix_of` items ∧
  (processed st).*2 ++ (failed st).*2 ⊆+ items.
Proof.
  intros Hr.
  destruct (reachable_inv _ _ _ _ Hr) as [_ _ Hfifo Hflow _ _ _ _ _].
  assert (processed st ++ failed st ⊆+ dequeued st) as Hsub.
  { rewrite Hflow. apply submseteq_inserts_l. done. }
  split; [done|]. split; [by exists (queue st)|].
  rewrite <- fmap_app. rewrite Hfifo.
  apply submseteq_inserts_r. by apply fmap_submseteq.
Qed.

(** Workers are not abandoned by a single interruption: when [start()] ends
    with KeyboardInterrupt and only one interruption reached it, no worker
    thread is alive. *)
Theorem interrupted_once_waits_for_workers size items tr st :
  run tr (started size items) = Some st →
  main st = MDone RaisedKeyboardInterrupt →
  interrupts st = 1%nat →
  any_alive st = false.
Proof.
  intros Hr Hmain Hone.
  destruct (reachable_facts _ _ _ _ Hr) as [_ [_ Hi]].
  rewrite Hmain in Hi. destruct Hi as [?|[_ ?]]; [lia|done].
Qed.

Lemma step_counted e st st' :
  step e st = Some st' → incr (pcounter st) = 1 →
  incr (pcounter st') = 1 ∧ max (pcounter st') = max (pcounter st) ∧
  ((counted_at e st = [] ∧ counter (pcounter st') = counter (pcounter st)) ∨
   (counted_at e st = [(counter (pcounter st) + 1, max (pcounter st))] ∧
    counter (pcounter st') = counter (pcounter st) + 1)).
Proof.
  intros H Hincr. unfold counted_at.
  step_cases H; pool_simpl;
    try match goal with Hw : workers _ !! _ = _ |- _ => rewrite Hw end;
    rewrite ?Hincr; auto.
  split; [done|]. split; [done|]. right.
  unfold increment. cbn. by rewrite Hincr.
Qed.

Lemma counted_along_counts tr : ∀ st st',
  incr (pcounter st) = 1 → run tr st = Some st' →
  counter (pcounter st) ≤ counter (pcounter st') ∧
  counted_along tr st
  = (λ k, (counter (pcounter st) + Z.of_nat k, max (pcounter st)))
      <$> seq 1 (Z.to_nat (counter (pcounter st') - counter (pcounter st))).
Proof.
  induction tr as [|e tr IH]; intros st st' Hincr Hr; cbn in Hr |- *.
  - injection Hr as <-. by rewrite Z.sub_diag.
  - destruct (step e st) as [st1|] eqn:Hs; [|done].
    destruct (step_counted _ _ _ Hs Hincr) as (Hincr1 & Hmax & Hhere).
    destruct (IH _ _ Hincr1 Hr) as [Hle Hrest]. rewrite Hrest, Hmax.
    destruct Hhere as [[-> Hc]|[-> Hc]]; rewrite Hc in *.
    + done.
    + split; [lia|].
      replace (Z.to_nat (counter (pcounter st') - counter (pcounter st)))
        with (S (Z.to_nat (counter (pcounter st') - (counter (pcounter st) + 1))))
        by lia.
      cbn [seq fmap list_fmap app]. f_equal.
      rewrite <- (fmap_S_seq 1), <- list_fmap_compose.
      apply list_fmap_ext. intros _ k _. cbn. f_equal. lia.
Qed.

(** A pair the counter returned is held by the worker it was returned to
    until that worker calls [process] with it. *)
Lemma step_received size items e st st' :
  step e st = Some st' → pool_inv size items st →
  counted_at e st ++ (workers st ≫= awaiting_process)
  ≡ₚ received_at e st ++ (workers st' ≫= awaiting_process).
Proof.
  intros H [_ Ht _ _ _ _ _ _ _]. unfold counted_at, received_at.
  step_cases H; pool_simpl.
  all: try match goal with Hw : workers _ !! _ = _ |- _ => rewrite ?Hw end.
  all: cbn [app fst].
  all: try done.
  all: try (symmetry; eapply bind_insert_same; [eassumption|done]).
  - (* [counter.increment()] *)
    match goal with Hw : workers _ !! ?i = Some (WIncrement ?x)
      |- context [<[?i:=?y]> _] =>
        pose proof (bind_insert_perm awaiting_process _ i _ y Hw) as HP end.
    cbn in HP. rewrite app_nil_r in HP. rewrite HP.
    unfold increment. cbn [fst]. apply Permutation_cons_append.
  - (* [process] returns *)
    match goal with Hw : workers _ !! ?i = Some (WProcess ?x ?info)
      |- context [<[?i:=?y]> _] =>
        pose proof (bind_insert_perm awaiting_process _ i _ y Hw) as HP end.
    cbn in HP. rewrite app_nil_r in HP. rewrite <- HP.
    symmetry. apply Permutation_cons_append.
  - (* [process] raises *)
    match goal with Hw : workers _ !! ?i = Some (WProcess ?x ?info)
      |- context [<[?i:=?y]> _] =>
        pose proof (bind_insert_perm awaiting_process _ i _ y Hw) as HP end.
    cbn in HP. rewrite app_nil_r in HP. rewrite <- HP.
    symmetry. apply Permutation_cons_append.
  - (* the main thread starts a thread: it was not started *)
    unfold threads_ok in Ht.
    match goal with Hm : main _ = MStarting _ |- _ => rewrite Hm in Ht end.
    match goal with Hw : workers _ !! _ = Some _ |- _ =>
      destruct (Ht _ _ Hw) as [_ Hnot]; rewrite (Hnot (Nat.le_refl _)) in Hw;
      symmetry; by eapply bind_insert_same end.
Qed.

Lemma run_received size items tr : ∀ st st',
  pool_inv size items st → run tr st = Some st' →
  counted_along tr st ++ (workers st ≫= awaiting_process)
  ≡ₚ received_along tr st ++ (workers st' ≫= awaiting_process).
Proof.
  induction tr as [|e tr IH]; intros st st' Hinv Hr; cbn in Hr |- *.
  - by injection Hr as <-.
  - destruct (step e st) as [st1|] eqn:Hs; [|done].
    pose proof (step_received _ _ _ _ _ Hs Hinv) as Hhere.
    pose proof (IH _ _ (step_inv _ _ _ _ _ Hs Hinv) Hr) as Hrest.
    rewrite <- !(assoc_L (++)), <- Hrest.
    rewrite !(assoc_L (++)).
    rewrite (Permutation_app_comm (received_at e st)).
    rewrite <- !(assoc_L (++)), <- Hhere.
    rewrite !(assoc_L (++)). f_equiv. apply Permutation_app_comm.
Qed.

(** The progress pairs [counter.increment()] returns along a run are
    [(1, M), (2, M), ..., (n, M)] in the order of the calls, where [M] is the
    number of items given to [fill] and [n] the value of the counter: no
    value is given twice and none is skipped.  Each of them is either still
    held by the worker it was returned to or was received by one call of
    [process]; so no two calls of [process] receive the same pair - in
    whatever order the workers make these calls. *)
Theorem progress_pairs_counted_in_order size items tr st :
  run tr (started size items) = Some st →
  counted_along tr (started size items)
  = (λ k, (Z.of_nat k, Z.of_nat (length items)))
      <$> seq 1 (Z.to_nat (get (pcounter st))) ∧
  counted_along tr (started size items)
  ≡ₚ received_along tr (started size items)
     ++ (workers st ≫= awaiting_process) ∧
  NoDup (received_along tr (started size items)).
Proof.
  intros Hr.
  assert (counted_along tr (started size items)
          = (λ k, (Z.of_nat k, Z.of_nat (length items)))
              <$> seq 1 (Z.to_nat (get (pcounter st)))) as Hcounted.
  { destruct (counted_along_counts tr (started size items) st eq_refl Hr)
      as [_ ->].
    cbn. by rewrite Z.sub_0_r. }
  assert (counted_along tr (started size items)
          ≡ₚ received_along tr (started size items)
             ++ (workers st ≫= awaiting_process)) as Hperm.
  { pose proof (run_received size items tr _ _ (started_inv size items) Hr)
      as HP.
    assert (workers (started size items) ≫= awaiting_process = []) as Hnone.
    { cbn. induction (Z.to_nat size) as [|n IH]; [done|exact IH]. }
    by rewrite Hnone, app_nil_r in HP. }
  split; [done|]. split; [done|].
  assert (NoDup (counted_along tr (started size items))) as Hnd.
  { rewrite Hcounted. apply NoDup_fmap_2; [|apply NoDup_seq].
    intros j k [= Hjk]. lia. }
  rewrite Hperm in Hnd. by apply NoDup_app in Hnd as [? _].
Qed.

Lemma step_effort size items e st st' :
  step e st = Some st' → pool_inv size items st →
  (effort st' + (if is_worker_event e then 1 else 0) ≤ effort st)%nat.
Proof.
  intros H [_ Ht _ _ _ _ _ _ _]. unfold effort.
  step_cases H; pool_simpl; try lia.
  all: match goal with
    | Hw : workers _ !! ?i = Some ?w |- context [<[?i:=?w']> _] =>
        try (match goal with Hmain : main _ = MStarting _ |- _ =>
          rewrite (starting_not_started _ _ _ Ht Hmain Hw) in Hw end);
        pose proof (sum_insert rank _ i _ w' Hw) as HP; cbn [rank] in HP
    end.
  all: try match goal with Hq : queue _ = _ |- _ => rewrite ?Hq end.
  all: cbn [is_worker_event length]; lia.
Qed.

Lemma run_effort size items tr : ∀ st st',
  run tr st = Some st' → pool_inv size items st →
  (effort st' + worker_events tr ≤ effort st)%nat.
Proof.
  induction tr as [|e tr IH]; intros st st' Hr Hi; cbn in Hr.
  - injection Hr as <-. cbn. lia.
  - destruct (step e st) as [st1|] eqn:Hs; [|done].
    pose proof (step_effort _ _ _ _ _ Hs Hi) as H1.
    pose proof (IH _ _ Hr (step_inv _ _ _ _ _ Hs Hi)) as H2.
    unfold worker_events in *. cbn [List.filter].
    destruct (is_worker_event e); cbn [length]; lia.
Qed.

(** No worker loops for ever: along any schedule the workers take at most
    [8 * len(items) + 3 * size] steps between them. *)
Theorem worker_steps_bounded size items tr st :
  run tr (started size items) = Some st →
  (worker_events tr ≤ 8 * length items + 3 * Z.to_nat size)%nat.
Proof.
  intros Hr.
  pose proof (run_effort _ _ _ _ _ Hr (started_inv size items)) as Hle.
  assert (effort (started size items)
          = (8 * length items + 3 * Z.to_nat size)%nat) as Heq.
  { unfold effort. cbn. f_equal.
    induction (Z.to_nat size) as [|n IH]; [done|].
    cbn [replicate fmap list_fmap rank].
    change (sum_list (3%nat :: ?k)) with (3 + sum_list k)%nat.
    rewrite IH. lia. }
  lia.
Qed.

Lemma step_sole_worker e st st' :
  step e st = Some st' → length (workers st) = 1%nat →
  sole_worker_ok st → sole_worker_ok st'.
Proof.
  intros H Hlen Hok.
  destruct (workers st) as [|w0 [|]] eqn:Hws; try done.
  unfold sole_worker_ok in *. rewrite Hws in Hok.
  specialize (Hok w0 eq_refl).
  intros w Hw Hcase.
  step_cases H; pool_simpl; rewrite ?Hws in *.
  all: try match goal with Hl : (_ :: _) !! ?i = Some _ |- _ =>
         destruct i as [|?]; [|done]; cbn in Hl, Hw; simplify_eq end.
  all: try (destruct Hcase; congruence).
  all: try (apply Hok; destruct Hcase; auto; fail).
  all: try (match goal with Hq : queue _ = _ |- _ => rewrite Hq; done end).
  all: try (match goal with Hm : main _ = MStarting ?k |- _ =>
         destruct k as [|?]; cbn in *; simplify_eq end).
  all: try (destruct Hcase; congruence).
  all: try (apply Hok; injection Hw as <-; done).
  all: apply Hok; left; congruence.
Qed.

Lemma worker_step_main i o st st' :
  worker_step i o st = Some st' →
  main st' = main st ∧ length (workers st') = length (workers st).
Proof.
  intros H. change (step (EvWorker i o) st = Some st') in H.
  step_cases H; pool_simpl; by rewrite ?length_insert.
Qed.

(** A single worker is never blocked while it is alive: it never finds the
    queue empty in [queue.get()]. *)
Lemma sole_worker_can_step items st o :
  pool_inv 1 items st → sole_worker_ok st → any_alive st = true →
  ∃ st', worker_step 0 o st = Some st'.
Proof.
  intros Hinv Hok Ha.
  assert (∃ w0, workers st = [w0]) as [w0 Hws].
  { destruct Hinv as [Hlen _ _ _ _ _ _ _ _].
    destruct (workers st) as [|w0 [|]]; try done. by exists w0. }
  unfold any_alive in Ha. rewrite Hws in Ha. cbn in Ha.
  rewrite orb_false_r in Ha.
  unfold worker_step. rewrite Hws. cbn.
  destruct w0 as [| | | |x|x info| | |]; try done.
  - destruct (queue st); eauto.
  - destruct (stop_event st); eauto.
  - destruct (queue st) eqn:Hq; [|eauto].
    by destruct (Hok _ Hws (or_intror eq_refl)).
  - eauto.
  - destruct o; eauto.
  - destruct (unfinished_tasks st); eauto.
  - eauto.
Qed.

(** With a single worker, whoever is next can move: the worker when it is
    alive, the main thread otherwise; and the move brings the end of
    [start()] nearer.  No interruption is needed for it. *)
Lemma sole_worker_progress items st :
  pool_inv 1 items st → sole_worker_ok st → (∀ r, main st ≠ MDone r) →
  ∃ e st', e ≠ EvInterrupt ∧ step e st = Some st' ∧
    (effort st' + main_rank st' < effort st + main_rank st)%nat.
Proof.
  intros Hinv Hok Hnot.
  assert (any_alive st = true →
          ∃ st', step (EvWorker 0 HandlerReturns) st = Some st' ∧
            (effort st' + main_rank st' < effort st + main_rank st)%nat) as Hworker.
  { intros Ha.
    destruct (sole_worker_can_step items st HandlerReturns Hinv Hok Ha)
      as [st' Hs].
    exists st'. split; [done|].
    pose proof (step_effort 1 items (EvWorker 0 HandlerReturns) _ _ Hs Hinv) as He.
    destruct (worker_step_main _ _ _ _ Hs) as [Hm Hl].
    unfold main_rank. rewrite Hm, Hl. cbn [is_worker_event] in He.
    destruct (main st); lia. }
  assert (∀ st', main_step st = Some st' →
            (main_rank st' < main_rank st)%nat →
            ∃ e st', e ≠ EvInterrupt ∧ step e st = Some st' ∧
              (effort st' + main_rank st' < effort st + main_rank st)%nat) as Hmain.
  { intros st' Hs Hlt. exists EvMain, st'. split; [done|]. split; [done|].
    pose proof (step_effort 1 items EvMain _ _ Hs Hinv) as He.
    cbn [is_worker_event] in He. lia. }
  destruct (main st) as [k| | | | |r] eqn:Hm.
  - destruct (workers st !! k) as [w|] eqn:Hk.
    + eapply Hmain; [unfold main_step; rewrite Hm, Hk; reflexivity|].
      apply lookup_lt_Some in Hk.
      unfold main_rank. cbn. rewrite Hm, length_insert. lia.
    + eapply Hmain; [unfold main_step; rewrite Hm, Hk; reflexivity|].
      unfold main_rank. cbn. rewrite Hm. lia.
  - destruct (any_alive st) eqn:Ha.
    + destruct (Hworker eq_refl) as [st' ?]. by exists (EvWorker 0 HandlerReturns), st'.
    + eapply Hmain; [unfold main_step; rewrite Hm, Ha; reflexivity|].
      unfold main_rank. cbn. rewrite Hm. lia.
  - eapply Hmain; [unfold main_step; rewrite Hm; reflexivity|].
    unfold main_rank. cbn. rewrite Hm. lia.
  - destruct (any_alive st) eqn:Ha.
    + destruct (Hworker eq_refl) as [st' ?]. by exists (EvWorker 0 HandlerReturns), st'.
    + eapply Hmain; [unfold main_step; rewrite Hm, Ha; reflexivity|].
      unfold main_rank. cbn. rewrite Hm. lia.
  - destruct (stop_event st) eqn:Hstop.
    + eapply Hmain; [unfold main_step; rewrite Hm, Hstop; reflexivity|].
      unfold main_rank. cbn. rewrite Hm. lia.
    + eapply Hmain; [unfold main_step; rewrite Hm, Hstop; reflexivity|].
      unfold main_rank. cbn. rewrite Hm. lia.
  - by destruct (Hnot r).
Qed.

Lemma sole_worker_finishes items n : ∀ st,
  (effort st + main_rank st ≤ n)%nat →
  pool_inv 1 items st → sole_worker_ok st →
  ∃ tr st' r, count_interrupts tr = 0%nat ∧ (length tr ≤ n)%nat ∧
    run tr st = Some st' ∧ main st' = MDone r.
Proof.
  induction n as [|n IH]; intros st Hle Hinv Hok.
  - exists [], st. destruct (main st) as [k| | | | |r] eqn:Hm;
      try (unfold main_rank in Hle; rewrite Hm in Hle; lia).
    by exists r.
  - destruct (main st) as [k| | | | |r] eqn:Hm;
      [..|exists [], st, r; cbn; split_and!; (done || lia)].
    all: destruct (sole_worker_progress items st Hinv Hok)
           as (e & st1 & He & Hs & Hlt);
      [by rewrite Hm|].
    all: destruct (IH st1) as (tr & st' & r & Hno & Hlen & Hr & Hd);
      [lia|by eapply step_inv|
       eapply step_sole_worker; [exact Hs| |exact Hok];
       by destruct Hinv as [-> _ _ _ _ _ _ _ _]|].
    all: exists (e :: tr), st', r; cbn; rewrite Hs; split_and!; try done;
      [destruct e; done|lia].
Qed.

Lemma run_sole_worker tr : ∀ st0 st,
  sole_worker_ok st0 → length (workers st0) = 1%nat →
  run tr st0 = Some st → sole_worker_ok st.
Proof.
  induction tr as [|e tr IH]; intros st0 st Hok Hlen Hr; cbn in Hr.
  - by injection Hr as <-.
  - destruct (step e st0) as [st1|] eqn:Hs; [|done].
    apply (IH st1); [by eapply step_sole_worker| |done].
    assert (length (workers st1) = length (workers st0)) as ->; [|done].
    clear -Hs. step_cases Hs; pool_simpl; by rewrite ?length_insert.
Qed.

(** A pool with a single worker cannot hang.  In every state a run reaches,
    the worker, while it is alive, can take its next step whatever the
    handler does: it is never blocked in [queue.get()].  And from that state
    a schedule without any interruption, of a length the state bounds, ends
    [start()]. *)
Theorem single_worker_pool_can_always_finish items tr st :
  run tr (started 1 items) = Some st →
  (any_alive st = true → ∀ o, is_Some (step (EvWorker 0 o) st)) ∧
  ∃ tr' st' r,
    count_interrupts tr' = 0%nat ∧
    (length tr' ≤ effort st + main_rank st)%nat ∧
    run tr' st = Some st' ∧ main st' = MDone r.
Proof.
  intros Hr.
  pose proof (reachable_inv _ _ _ _ Hr) as Hinv.
  assert (sole_worker_ok st) as Hok.
  { apply (run_sole_worker tr (started 1 items)); [|done|done].
    intros w Hw [-> | ->]; done. }
  split.
  - intros Ha o. cbn.
    destruct (sole_worker_can_step items st o Hinv Hok Ha) as [st' ->].
    by eexists.
  - by eapply sole_worker_finishes.
Qed.

End Run.

(** *** The properties on concrete runs *)

Lemma task_done_never_raises_witness :
  ∃ st : pool nat,
    run clean_schedule (started 2 [1%nat; 2%nat]) = Some st ∧
    unfinished_tasks st
    = (length (queue st) + length (workers st ≫= busy) + length (failed st))%nat ∧
    ∀ i, workers st !! i = Some WTaskDone → unfinished_tasks st ≠ 0%nat.
Proof.
  eexists. split; [vm_compute; reflexivity|].
  apply (task_done_never_raises 2 [1%nat; 2%nat] clean_schedule).
  vm_compute; reflexivity.
Defined.

Lemma failure_ends_in_pool_exception_witness :
  ∃ (st : pool nat) (r : start_result),
    run both_fail_schedule (started 2 [1%nat; 2%nat]) = Some st ∧
    main st = MDone r ∧
    failed st = [(0%nat, 1%nat); (1%nat, 2%nat)] ∧
    r = RaisedWorkerPoolException.
Proof.
  eexists _, _. split; [vm_compute; reflexivity|].
  split; [reflexivity|]. split; [reflexivity|].
  eapply (failure_ends_in_pool_exception 2 [1%nat; 2%nat] both_fail_schedule);
    [vm_compute; reflexivity|reflexivity
    |intros Hf; vm_compute in Hf; discriminate Hf|reflexivity].
Defined.

Lemma no_item_handled_twice_witness :
  ∃ st : pool nat,
    run (race_schedule ++ race_continuation) (started 2 [1%nat; 2%nat]) = Some st ∧
    processed st ++ failed st ⊆+ dequeued st ∧
    (dequeued st).*2 `prefix_of` [1%nat; 2%nat] ∧
    (processed st).*2 ++ (failed st).*2 ⊆+ [1%nat; 2%nat].
Proof.
  eexists. split; [vm_compute; reflexivity|].
  apply (no_item_handled_twice 2 [1%nat; 2%nat]
           (race_schedule ++ race_continuation)).
  vm_compute; reflexivity.
Defined.

Lemma interrupted_once_witness :
  ∃ st : pool nat,
    run interrupted_schedule (started 2 [1%nat; 2%nat]) = Some st ∧
    main st = MDone RaisedKeyboardInterrupt ∧
    interrupts st = 1%nat ∧
    processed st = [(0%nat, 1%nat)] ∧
    any_alive st = false.
Proof.
  eexists. split; [vm_compute; reflexivity|].
  split; [reflexivity|]. split; [reflexivity|]. split; [reflexivity|].
  apply (interrupted_once_waits_for_workers 2 [1%nat; 2%nat] interrupted_schedule);
    [vm_compute; reflexivity|reflexivity|reflexivity].
Defined.

Lemma progress_pairs_witness :
  ∃ st : pool nat,
    run crossed_schedule (started 2 [1%nat; 2%nat]) = Some st ∧
    counted_along crossed_schedule (started 2 [1%nat; 2%nat]) = [(1, 2); (2, 2)] ∧
    received_along crossed_schedule (started 2 [1%nat; 2%nat]) = [(2, 2); (1, 2)] ∧
    counted_along crossed_schedule (started 2 [1%nat; 2%nat])
    = (λ k, (Z.of_nat k, Z.of_nat (length [1%nat; 2%nat])))
        <$> seq 1 (Z.to_nat (get (pcounter st))) ∧
    counted_along crossed_schedule (started 2 [1%nat; 2%nat])
    ≡ₚ received_along crossed_schedule (started 2 [1%nat; 2%nat])
       ++ (workers st ≫= awaiting_process) ∧
    NoDup (received_along crossed_schedule (started 2 [1%nat; 2%nat])).
Proof.
  eexists. split; [vm_compute; reflexivity|].
  split; [reflexivity|]. split; [reflexivity|].
  apply (progress_pairs_counted_in_order 2 [1%nat; 2%nat] crossed_schedule).
  vm_compute; reflexivity.
Defined.

Lemma worker_steps_bounded_witness :
  ∃ st : pool nat,
    run clean_schedule (started 2 [1%nat; 2%nat]) = Some st ∧
    worker_events clean_schedule = 14%nat ∧
    (worker_events clean_schedule ≤ 8 * length [1%nat; 2%nat] + 3 * Z.to_nat 2)%nat.
Proof.
  eexists. split; [vm_compute; reflexivity|]. split; [reflexivity|].
  eapply (worker_steps_bounded 2 [1%nat; 2%nat] clean_schedule).
  vm_compute; reflexivity.
Defined.

Lemma single_worker_witness :
  ∃ st : pool nat,
    run [EvMain; EvMain; EvWorker 0 returns; EvWorker 0 returns]
      (started 1 [1%nat]) = Some st ∧
    workers st = [WGet] ∧
    (any_alive st = true → ∀ o, is_Some (step (EvWorker 0 o) st)) ∧
    ∃ tr' st' r,
      count_interrupts tr' = 0%nat ∧
      (length tr' ≤ effort st + main_rank st)%nat ∧
      run tr' st = Some st' ∧ main st' = MDone r.
Proof.
  eexists. split; [vm_compute; reflexivity|]. split; [reflexivity|].
  apply (single_worker_pool_can_always_finish [1%nat]
           [EvMain; EvMain; EvWorker 0 returns; EvWorker 0 returns]).
  vm_compute; reflexivity.
Defined.

End PoolRunProps.

(* ===================================================================== *)
(** ** Further properties of the download stage *)
(* ===================================================================== *)

Module DownloadMoreProps.
Import Download DownloadProps.

Section Handler.
Variable path_join : string → string → string.
Variable md5_hexdigest : list Byte.byte → string.
Variable is_zipfile : list Byte.byte → bool.
Variable testzip : list Byte.byte → option string.

Local Abbreviation _validate_downloaded_file := (Download._validate_downloaded_file md5_hexdigest is_zipfile testzip).
Local Abbreviation _file_exists := (Download._file_exists md5_hexdigest is_zipfile testzip).
Local Abbreviation _download_file := (Download._download_file path_join md5_hexdigest is_zipfile testzip).
Local Abbreviation secured := (_secured_download_file path_join md5_hexdigest is_zipfile testzip).
Local Abbreviation process := (Download.process path_join md5_hexdigest is_zipfile testzip).
Local Abbreviation unfold_secured := (secured_unfold path_join md5_hexdigest is_zipfile testzip).
Local Abbreviation calls_of_download := (download_calls path_join md5_hexdigest is_zipfile testzip).

(** The retry loop, by induction on the attempts that are left. *)
Lemma secured_ind (P : nat → world → result unit * world → Prop)
    self url filename md5sum :
  (∀ attempt exc w, (max_attempt self < attempt)%nat →
     P attempt w (Raise exc, w)) →
  (∀ attempt w w1, (attempt ≤ max_attempt self)%nat →
     _download_file self url filename md5sum w = (Ok tt, w1) → P attempt w (Ok tt, w1)) →
  (∀ attempt w e w1, (attempt ≤ max_attempt self)%nat →
     _download_file self url filename md5sum w = (Raise e, w1) → retried e = false →
     P attempt w (Raise e, w1)) →
  (∀ attempt w e w1 out, (attempt ≤ max_attempt self)%nat →
     _download_file self url filename md5sum w = (Raise e, w1) → retried e = true →
     P (S attempt) w1 out → P attempt w out) →
  ∀ attempt exc w, P attempt w (secured self url filename md5sum attempt exc w).
Proof.
  intros Hover Hok Hother Hretry attempt.
  remember (S (max_attempt self) - attempt)%nat as n eqn:Hn.
  revert attempt Hn. induction n as [|n IH]; intros attempt Hn exc w.
  - rewrite unfold_secured. rewrite decide_False by lia. apply Hover. lia.
  - rewrite unfold_secured. rewrite decide_True by lia.
    destruct (_download_file self url filename md5sum w) as [[[]|e] w1] eqn:Hd.
    + apply Hok; [lia|done].
    + destruct (retried e) eqn:He.
      * eapply Hretry; [lia|done|done|]. apply IH. lia.
      * apply Hother; [lia|done|done].
Qed.

(** [process] never calls [_download_file] more than [max_attempt] times and
    never opens more than [max_attempt] URLs, whatever the network does. *)
Theorem process_attempts_bounded self item w r w' :
  process self item w = (r, w') →
  (calls w ≤ calls w' ≤ calls w + max_attempt self)%nat ∧
  (length (opened w) ≤ length (opened w')
     ≤ length (opened w) + max_attempt self)%nat.
Proof.
  intros Hp. change w' with (r, w').2. rewrite <- Hp. clear Hp.
  unfold Download.process.
  assert (∀ attempt exc w0,
    let out := secured self (url item) (zip item) (md5 item) attempt exc w0 in
    (calls w0 ≤ calls out.2 ≤ calls w0 + (S (max_attempt self) - attempt))%nat ∧
    (length (opened w0) ≤ length (opened out.2)
       ≤ length (opened w0) + (S (max_attempt self) - attempt))%nat) as H.
  { apply (secured_ind (λ attempt w0 out,
      (calls w0 ≤ calls out.2 ≤ calls w0 + (S (max_attempt self) - attempt))%nat ∧
      (length (opened w0) ≤ length (opened out.2)
         ≤ length (opened w0) + (S (max_attempt self) - attempt))%nat)).
    - intros; cbn; lia.
    - intros attempt w0 w1 Hle Hd.
      apply calls_of_download in Hd as [Hc [Ho|Ho]]; cbn; rewrite Hc, Ho, ?length_app;
        cbn; lia.
    - intros attempt w0 e w1 Hle Hd _.
      apply calls_of_download in Hd as [Hc [Ho|Ho]]; cbn; rewrite Hc, Ho, ?length_app;
        cbn; lia.
    - intros attempt w0 e w1 out Hle Hd _ [IHc IHo].
      apply calls_of_download in Hd as [Hc [Ho|Ho]]; rewrite Hc, Ho, ?length_app in *;
        cbn in *; lia. }
  specialize (H 1%nat (OtherError "not defined") w). cbn in H.
  replace (max_attempt self - 0)%nat with (max_attempt self) in H by lia.
  exact H.
Qed.

(** A call of [_download_file] that returns leaves a file at the destination
    that passes the validation. *)
Lemma download_ok_valid self url filename md5sum w w' :
  _download_file self url filename md5sum w = (Ok tt, w') →
  _validate_downloaded_file (path_join (folder self) filename) md5sum w' = Ok tt.
Proof.
  unfold Download._download_file. intros H.
  destruct (_file_exists _ _ _) eqn:He.
  - injection H as <-. unfold Download._file_exists in He.
    change (fs (count_call w)) with (fs w) in He.
    destruct (fs w !! _) eqn:Hf; [|done].
    change (_validate_downloaded_file (path_join (folder self) filename) md5sum w)
      with (_validate_downloaded_file (path_join (folder self) filename) md5sum (count_call w)).
    by destruct (_validate_downloaded_file _ _ (count_call w)) as [[]|].
  - cbn in H. destruct (net _ _ _) as [e|chunks broken]; [done|].
    destruct (transfer _ _ _ _) as [[[]|e] w2]; [|done].
    injection H as H <-. done.
Qed.

Lemma process_ok_valid self item w w' :
  process self item w = (Ok tt, w') →
  _validate_downloaded_file (path_join (folder self) (zip item)) (md5 item) w' = Ok tt.
Proof.
  unfold Download.process.
  generalize 1%nat (OtherError "not defined") w.
  apply (secured_ind (λ _ _ out, out = (Ok tt, w') → _)).
  - done.
  - intros attempt w0 w1 _ Hd [= ->]. by eapply download_ok_valid.
  - done.
  - auto.
Qed.

(** When [process] returns normally, the file at the destination passes the
    validation with the item's checksum: it is there, its digest is the
    checksum when one was given, and it is a sound archive. *)
Theorem process_success_leaves_valid_file self item w w' :
  process self item w = (Ok tt, w') →
  _validate_downloaded_file (path_join (folder self) (zip item)) (md5 item) w' = Ok tt ∧
  is_Some (fs w' !! path_join (folder self) (zip item)).
Proof.
  intros Hv%process_ok_valid.
  split; [done|]. unfold Download._validate_downloaded_file in Hv.
  destruct (fs w' !! _); [eauto|done].
Qed.

(** A call of [_download_file] that finds a valid file only counts itself. *)
Lemma download_skips self url filename md5sum w :
  _validate_downloaded_file (path_join (folder self) filename) md5sum w = Ok tt →
  _download_file self url filename md5sum w = (Ok tt, count_call w).
Proof.
  intros Hv. unfold Download._download_file, Download._file_exists.
  change (_validate_downloaded_file (path_join (folder self) filename) md5sum (count_call w))
    with (_validate_downloaded_file (path_join (folder self) filename) md5sum w).
  change (fs (count_call w)) with (fs w). rewrite Hv.
  unfold Download._validate_downloaded_file in Hv.
  by destruct (fs w !! _).
Qed.

(** The download is resumable: after [process] returned normally, running it
    again on the same item returns normally without opening any URL and
    without touching the file system. *)
Theorem process_twice_skips self item w w' :
  (1 ≤ max_attempt self)%nat →
  process self item w = (Ok tt, w') →
  process self item w' = (Ok tt, count_call w') ∧
  opened (count_call w') = opened w' ∧ fs (count_call w') = fs w'.
Proof.
  intros Hmax Hp. split; [|done].
  pose proof (process_ok_valid _ _ _ _ Hp) as Hv.
  unfold Download.process. rewrite unfold_secured.
  rewrite decide_True by done.
  by rewrite (download_skips _ _ _ _ _ Hv).
Qed.

(** [process] stops at the first attempt that succeeds: at once, after one
    retried failure, or after two. *)
Theorem process_returns_at_first_success folder item :
  let self := DownloadWorker_init folder in
  let attempt := _download_file self (url item) (zip item) (md5 item) in
  (∀ w0 w1, attempt w0 = (Ok tt, w1) → process self item w0 = (Ok tt, w1)) ∧
  (∀ w0 w1 w2 e1,
     attempt w0 = (Raise e1, w1) → retried e1 = true →
     attempt w1 = (Ok tt, w2) →
     process self item w0 = (Ok tt, w2) ∧ calls w2 = (calls w0 + 2)%nat) ∧
  (∀ w0 w1 w2 w3 e1 e2,
     attempt w0 = (Raise e1, w1) → retried e1 = true →
     attempt w1 = (Raise e2, w2) → retried e2 = true →
     attempt w2 = (Ok tt, w3) →
     process self item w0 = (Ok tt, w3) ∧ calls w3 = (calls w0 + 3)%nat).
Proof.
  intros self attempt. split; [|split].
  - intros w0 w1 H1. unfold Download.process.
    rewrite unfold_secured. cbn. fold attempt. by rewrite H1.
  - intros w0 w1 w2 e1 H1 R1 H2. unfold Download.process.
    rewrite unfold_secured. cbn. fold attempt. rewrite H1, R1.
    rewrite unfold_secured. cbn. fold attempt. rewrite H2. split; [done|].
    apply calls_of_download in H1 as [C1 _], H2 as [C2 _]. lia.
  - intros w0 w1 w2 w3 e1 e2 H1 R1 H2 R2 H3. unfold Download.process.
    rewrite unfold_secured. cbn. fold attempt. rewrite H1, R1.
    rewrite unfold_secured. cbn. fold attempt. rewrite H2, R2.
    rewrite unfold_secured. cbn. fold attempt. rewrite H3. split; [done|].
    apply calls_of_download in H1 as [C1 _], H2 as [C2 _], H3 as [C3 _]. lia.
Qed.

(** The transfer loop appends a prefix of the chunks to the file, and
    touches nothing else. *)
Lemma transfer_appends_prefix chunks broken path : ∀ w r w' data,
  fs w !! path = Some data →
  transfer chunks broken path w = (r, w') →
  ∃ k, (k ≤ length chunks)%nat ∧
       fs w' = <[path := data ++ concat (take k chunks)]> (fs w) ∧
       stop_oracle w' = stop_oracle w.
Proof.
  induction chunks as [|chunk rest IH]; intros w r w' data Hf H; cbn in H.
  - exists 0%nat. destruct broken; injection H as <- <-; cbn;
      rewrite app_nil_r, insert_id; done.
  - destruct chunk as [|b chunk].
    { exists 0%nat. injection H as <- <-. cbn.
      rewrite app_nil_r, insert_id by done. split; [lia|done]. }
    destruct (stop_oracle w (polls w)).
    { exists 0%nat. injection H as <- <-. cbn.
      rewrite app_nil_r, insert_id by done. split; [lia|done]. }
    eapply (IH _ _ _ (data ++ b :: chunk)) in H as (k & Hk & Hfs & Hst).
    + exists (S k). split; [cbn; lia|]. split; [|done].
      rewrite Hfs. cbn. rewrite Hf. cbn.
      rewrite insert_insert_eq. by rewrite <- app_assoc.
    + cbn. rewrite Hf. cbn. by rewrite lookup_insert_eq.
Qed.

(** When [_download_file] fetches a stream, what it leaves at the destination
    is the concatenation of the first chunks of the stream - it stops at a set
    stop event, at an empty chunk or at a read error; no other file changes
    and exactly one URL is opened. *)
Theorem download_writes_a_prefix self url filename md5sum w r w' chunks broken :
  _file_exists (path_join (folder self) filename) md5sum w = false →
  net w (length (opened w)) url = Stream chunks broken →
  _download_file self url filename md5sum w = (r, w') →
  ∃ k, (k ≤ length chunks)%nat ∧
       fs w' = <[path_join (folder self) filename := concat (take k chunks)]> (fs w) ∧
       opened w' = opened w ++ [url].
Proof.
  intros He Hnet H. unfold Download._download_file in H.
  change (_file_exists (path_join (folder self) filename) md5sum (count_call w))
    with (_file_exists (path_join (folder self) filename) md5sum w) in H.
  rewrite He in H. cbn in H. rewrite Hnet in H.
  destruct (transfer _ _ _ _) as [r2 w2] eqn:Ht.
  pose proof Ht as Hcalls. apply transfer_calls in Hcalls as [_ Ho].
  eapply (transfer_appends_prefix _ _ _ _ _ _ []) in Ht as (k & Hk & Hfs & _);
    [|cbn; by rewrite lookup_insert_eq].
  exists k. split; [done|].
  cbn in Hfs. rewrite insert_insert_eq in Hfs.
  destruct r2 as [[]|e]; injection H as <- <-; by rewrite Hfs, Ho.
Qed.

(** While the stop event stays clear, the loop writes every chunk of a
    stream of non-empty chunks. *)
Lemma transfer_complete chunks path : ∀ w data,
  (∀ n, stop_oracle w n = false) →
  Forall (λ chunk, chunk ≠ []) chunks →
  fs w !! path = Some data →
  ∃ w', transfer chunks None path w = (Ok tt, w') ∧
        fs w' = <[path := data ++ concat chunks]> (fs w).
Proof.
  induction chunks as [|chunk rest IH]; intros w data Hstop Hne Hf; cbn.
  - exists w. split; [done|]. by rewrite app_nil_r, insert_id.
  - apply Forall_cons in Hne as [Hchunk Hrest].
    destruct chunk as [|b chunk]; [done|]. rewrite Hstop.
    destruct (IH (append_file path (b :: chunk) (is_set w).2)
                (data ++ b :: chunk)) as (w' & Ht & Hfs).
    + done.
    + done.
    + cbn. rewrite Hf. cbn. by rewrite lookup_insert_eq.
    + exists w'. split; [exact Ht|]. rewrite Hfs. cbn. rewrite Hf. cbn.
      rewrite insert_insert_eq. by rewrite <- app_assoc.
Qed.

(** A transfer that is not cancelled stores the whole stream: with the stop
    event clear all along and a stream of non-empty chunks that ends well,
    the destination holds the concatenation of all chunks, and the result of
    [_download_file] is the verdict of the validation on that file. *)
Theorem download_stores_whole_stream self url filename md5sum w chunks :
  _file_exists (path_join (folder self) filename) md5sum w = false →
  net w (length (opened w)) url = Stream chunks None →
  (∀ n, stop_oracle w n = false) →
  Forall (λ chunk, chunk ≠ []) chunks →
  ∃ w', _download_file self url filename md5sum w
          = (_validate_downloaded_file (path_join (folder self) filename) md5sum w', w') ∧
        fs w' = <[path_join (folder self) filename := concat chunks]> (fs w).
Proof.
  intros He Hnet Hstop Hne. unfold Download._download_file.
  change (_file_exists (path_join (folder self) filename) md5sum (count_call w))
    with (_file_exists (path_join (folder self) filename) md5sum w).
  rewrite He. cbn. rewrite Hnet.
  destruct (transfer_complete chunks (path_join (folder self) filename)
              (write_file (path_join (folder self) filename) []
                 (log_open url (count_call w))) [])
    as (w' & Ht & Hfs); [done|done|cbn; by rewrite lookup_insert_eq|].
  exists w'. rewrite Ht. split; [done|].
  rewrite Hfs. cbn. by rewrite insert_insert_eq.
Qed.

(** Cancellation bounds the transfer: when the stop event is first seen set
    at the [j]-th chunk, exactly the [j] chunks before it are on disk. *)
Lemma transfer_until_stop path broken : ∀ j chunks w data,
  (∀ i, (i < j)%nat → stop_oracle w (polls w + i) = false) →
  stop_oracle w (polls w + j) = true →
  (j < length chunks)%nat →
  Forall (λ chunk, chunk ≠ []) chunks →
  fs w !! path = Some data →
  ∃ w', transfer chunks broken path w = (Ok tt, w') ∧
        fs w' = <[path := data ++ concat (take j chunks)]> (fs w).
Proof.
  induction j as [|j IH]; intros chunks w data Hclear Hset Hlen Hne Hf.
  - destruct chunks as [|chunk rest]; [cbn in Hlen; lia|].
    apply Forall_cons in Hne as [Hchunk _].
    destruct chunk as [|b chunk]; [done|]. cbn.
    rewrite Nat.add_0_r in Hset. rewrite Hset.
    eexists. split; [done|]. cbn. by rewrite app_nil_r, insert_id.
  - destruct chunks as [|chunk rest]; [cbn in Hlen; lia|].
    apply Forall_cons in Hne as [Hchunk Hrest].
    destruct chunk as [|b chunk]; [done|]. cbn.
    rewrite <- (Nat.add_0_r (polls w)), (Hclear 0%nat) by lia.
    destruct (IH rest (append_file path (b :: chunk) (is_set w).2)
                (data ++ b :: chunk)) as (w' & Ht & Hfs).
    + intros i Hi. cbn. rewrite <- Nat.add_succ_r. apply Hclear. lia.
    + cbn. by rewrite <- Nat.add_succ_r.
    + cbn in Hlen. lia.
    + done.
    + cbn. rewrite Hf. cbn. by rewrite lookup_insert_eq.
    + exists w'. rewrite Nat.add_0_r. split; [exact Ht|].
      rewrite Hfs. cbn. rewrite Hf. cbn.
      rewrite insert_insert_eq. by rewrite <- app_assoc.
Qed.

(** A cancelled download leaves a truncated file: when the stop event is
    first seen set at the [j]-th chunk of the stream, [_download_file] leaves
    exactly the first [j] chunks at the destination (none for [j = 0]) and
    goes on to validate that file. *)
Theorem download_cancelled_truncates self url filename md5sum w chunks broken j :
  _file_exists (path_join (folder self) filename) md5sum w = false →
  net w (length (opened w)) url = Stream chunks broken →
  (∀ i, (i < j)%nat → stop_oracle w (polls w + i) = false) →
  stop_oracle w (polls w + j) = true →
  (j < length chunks)%nat →
  Forall (λ chunk, chunk ≠ []) chunks →
  ∃ w', _download_file self url filename md5sum w
          = (_validate_downloaded_file (path_join (folder self) filename) md5sum w', w') ∧
        fs w' = <[path_join (folder self) filename := concat (take j chunks)]> (fs w).
Proof.
  intros He Hnet Hclear Hset Hlen Hne. unfold Download._download_file.
  change (_file_exists (path_join (folder self) filename) md5sum (count_call w))
    with (_file_exists (path_join (folder self) filename) md5sum w).
  rewrite He. cbn. rewrite Hnet.
  destruct (transfer_until_stop (path_join (folder self) filename) broken j chunks
              (write_file (path_join (folder self) filename) []
                 (log_open url (count_call w))) [])
    as (w' & Ht & Hfs); [done|done|done|done|cbn; by rewrite lookup_insert_eq|].
  exists w'. rewrite Ht. split; [done|].
  rewrite Hfs. cbn. by rewrite insert_insert_eq.
Qed.

End Handler.

(** *** The properties on the small instance *)

Import DownloadWorlds.

Local Abbreviation demo_download :=
  (_download_file demo_join demo_md5 demo_is_zipfile demo_testzip).
Local Abbreviation demo_process :=
  (Download.process demo_join demo_md5 demo_is_zipfile demo_testzip).
Local Abbreviation demo_validate :=
  (_validate_downloaded_file demo_md5 demo_is_zipfile demo_testzip).
Local Abbreviation demo_exists :=
  (_file_exists demo_md5 demo_is_zipfile demo_testzip).
Local Abbreviation demo_self := (DownloadWorker_init "tmp").
Local Abbreviation demo_path := (demo_join "tmp" (zip demo_item)).

Lemma process_attempts_bounded_witness :
  let out := demo_process demo_self demo_item demo_failing_world in
  out.1 = Raise HTTPError ∧
  (calls demo_failing_world ≤ calls out.2 ≤ calls demo_failing_world + 3)%nat ∧
  (length (opened demo_failing_world) ≤ length (opened out.2)
     ≤ length (opened demo_failing_world) + 3)%nat.
Proof.
  intros out. split; [vm_compute; reflexivity|].
  apply (process_attempts_bounded demo_join demo_md5 demo_is_zipfile demo_testzip
           demo_self demo_item demo_failing_world out.1 out.2).
  apply surjective_pairing.
Defined.

Lemma process_success_witness :
  let out := demo_process demo_self demo_item demo_fresh_world in
  out.1 = Ok tt ∧
  fs out.2 !! demo_path = Some [Byte.x50; Byte.x4b] ∧
  demo_validate demo_path (md5 demo_item) out.2 = Ok tt ∧
  is_Some (fs out.2 !! demo_path).
Proof.
  intros out.
  assert (out.1 = Ok tt) as H1 by (vm_compute; reflexivity).
  split; [exact H1|]. split; [vm_compute; reflexivity|].
  apply (process_success_leaves_valid_file demo_join demo_md5 demo_is_zipfile
           demo_testzip demo_self demo_item demo_fresh_world out.2).
  rewrite <- H1. apply surjective_pairing.
Defined.

Lemma process_twice_witness :
  let out := demo_process demo_self demo_item demo_fresh_world in
  out.1 = Ok tt ∧
  opened out.2 = [url demo_item] ∧
  demo_process demo_self demo_item out.2 = (Ok tt, count_call out.2) ∧
  opened (count_call out.2) = opened out.2 ∧
  fs (count_call out.2) = fs out.2.
Proof.
  intros out.
  assert (out.1 = Ok tt) as H1 by (vm_compute; reflexivity).
  split; [exact H1|]. split; [vm_compute; reflexivity|].
  apply (process_twice_skips demo_join demo_md5 demo_is_zipfile demo_testzip
           demo_self demo_item demo_fresh_world out.2); [cbn; lia|].
  rewrite <- H1. apply surjective_pairing.
Defined.

Lemma process_first_success_witness :
  let attempt := demo_download demo_self (url demo_item) (zip demo_item) (md5 demo_item) in
  let w1 := (attempt demo_flaky_world).2 in
  let w2 := (attempt w1).2 in
  attempt demo_flaky_world = (Raise URLError, w1) ∧
  attempt w1 = (Ok tt, w2) ∧
  demo_process demo_self demo_item demo_flaky_world = (Ok tt, w2) ∧
  calls w2 = (calls demo_flaky_world + 2)%nat.
Proof.
  intros attempt w1 w2.
  assert (attempt demo_flaky_world = (Raise URLError, w1)) as H1
    by (vm_compute; reflexivity).
  assert (attempt w1 = (Ok tt, w2)) as H2 by (vm_compute; reflexivity).
  split; [exact H1|]. split; [exact H2|].
  exact (proj1 (proj2 (process_returns_at_first_success
           demo_join demo_md5 demo_is_zipfile demo_testzip "tmp" demo_item))
           demo_flaky_world w1 w2 URLError H1 eq_refl H2).
Defined.

Lemma download_prefix_witness :
  let out := demo_download demo_self (url demo_item) (zip demo_item) (md5 demo_item)
               demo_cancelled_world in
  demo_exists demo_path (md5 demo_item) demo_cancelled_world = false ∧
  ∃ k, (k ≤ length [[Byte.x50]; [Byte.x4b]])%nat ∧
       fs out.2 = <[demo_path := concat (take k [[Byte.x50]; [Byte.x4b]])]>
                    (fs demo_cancelled_world) ∧
       opened out.2 = opened demo_cancelled_world ++ [url demo_item].
Proof.
  intros out. split; [vm_compute; reflexivity|].
  apply (download_writes_a_prefix demo_join demo_md5 demo_is_zipfile demo_testzip
           demo_self (url demo_item) (zip demo_item) (md5 demo_item)
           demo_cancelled_world out.1 out.2 _ None);
    [vm_compute; reflexivity|reflexivity|apply surjective_pairing].
Defined.

Lemma download_whole_stream_witness :
  demo_exists demo_path (md5 demo_item) demo_fresh_world = false ∧
  ∃ w', demo_download demo_self (url demo_item) (zip demo_item) (md5 demo_item)
          demo_fresh_world
          = (demo_validate demo_path (md5 demo_item) w', w') ∧
        fs w' = <[demo_path := concat [[Byte.x50]; [Byte.x4b]]]> (fs demo_fresh_world).
Proof.
  split; [vm_compute; reflexivity|].
  apply (download_stores_whole_stream demo_join demo_md5 demo_is_zipfile demo_testzip
           demo_self (url demo_item) (zip demo_item) (md5 demo_item)
           demo_fresh_world);
    [vm_compute; reflexivity|reflexivity|reflexivity|].
  by repeat constructor.
Defined.

Lemma download_cancelled_witness :
  demo_exists demo_path (md5 demo_item) demo_cancelled_world = false ∧
  stop_oracle demo_cancelled_world (polls demo_cancelled_world + 1) = true ∧
  ∃ w', demo_download demo_self (url demo_item) (zip demo_item) (md5 demo_item)
          demo_cancelled_world
          = (demo_validate demo_path (md5 demo_item) w', w') ∧
        fs w' = <[demo_path := concat (take 1 [[Byte.x50]; [Byte.x4b]])]>
                  (fs demo_cancelled_world).
Proof.
  split; [vm_compute; reflexivity|]. split; [reflexivity|].
  apply (download_cancelled_truncates demo_join demo_md5 demo_is_zipfile
           demo_testzip demo_self (url demo_item) (zip demo_item) (md5 demo_item)
           demo_cancelled_world _ None 1);
    [vm_compute; reflexivity|reflexivity| | reflexivity|cbn; lia|].
  - intros i Hi. by replace i with 0%nat by lia.
  - by repeat constructor.
Defined.

End DownloadMoreProps.

(* ===================================================================== *)
(** ** Properties of the extract stage *)
(* ===================================================================== *)

Module ExtractProps.
Import Download Extract.

Section Handler.
Variable is_zipfile : list Byte.byte → bool.
Variable namelist : list Byte.byte → list string.
Variable target : string → string → string.
Variable read_member : list Byte.byte → string → result (option (list Byte.byte)).
Variable written_before_error : list Byte.byte → string → option (list Byte.byte).

Local Abbreviation extract_names :=
  (Extract.extract_names target read_member written_before_error).
Local Abbreviation process :=
  (Extract.process is_zipfile namelist target read_member written_before_error).

Lemma extract_names_frame folder filename names : ∀ files r files' p,
  extract_names folder filename names files = (r, files') →
  p ∉ target folder <$> names →
  files' !! p = files !! p.
Proof.
  induction names as [|name rest IH]; intros files r files' p H Hp; cbn in H.
  - by injection H as <- <-.
  - rewrite fmap_cons in Hp. apply not_elem_of_cons in Hp as [Hne Hrest].
    destruct (read_member _ name) as [[data|]|e].
    + rewrite (IH _ _ _ _ H Hrest). by rewrite lookup_insert_ne.
    + by apply (IH _ _ _ _ H).
    + injection H as <- <-.
      destruct (written_before_error _ name); [|done].
      by rewrite lookup_insert_ne.
Qed.

Lemma extract_names_ok folder filename archive names : ∀ files files',
  extract_names folder filename names files = (Ok tt, files') →
  files !! filename = Some archive →
  filename ∉ target folder <$> names →
  NoDup (target folder <$> names) →
  ∀ name, name ∈ names →
    ∃ member, read_member archive name = Ok member ∧
      ∀ data, member = Some data → files' !! target folder name = Some data.
Proof.
  induction names as [|name rest IH]; intros files files' H Hf Hnot Hnd n Hn.
  { by apply elem_of_nil in Hn. }
  cbn in H. rewrite Hf in H. cbn in H.
  rewrite fmap_cons in Hnot, Hnd.
  apply not_elem_of_cons in Hnot as [Hne Hnot].
  apply NoDup_cons in Hnd as [Hfresh Hnd].
  destruct (read_member archive name) as [member|e] eqn:Hm; [|done].
  assert (∃ files1, extract_names folder filename rest files1 = (Ok tt, files') ∧
            files1 !! filename = Some archive ∧
            ∀ data, member = Some data → files1 !! target folder name = Some data)
    as (files1 & H1 & Hf1 & Hhere).
  { destruct member as [data|].
    - exists (<[target folder name := data]> files). split; [done|]. split.
      + by rewrite lookup_insert_ne.
      + intros ? [= <-]. by rewrite lookup_insert_eq.
    - exists files. by repeat split. }
  apply elem_of_cons in Hn as [->|Hn].
  - exists member. split; [done|]. intros data Hd.
    rewrite (extract_names_frame _ _ _ _ _ _ _ H1 Hfresh). by apply Hhere.
  - by apply (IH files1 files').
Qed.

(** When [process] returns normally on an archive whose members go to
    distinct paths (none of them the archive itself): every member named by
    the archive could be read, every member that is a file is at its path
    with its content, and no other path of the file system has changed. *)
Theorem extract_writes_every_member self filename archive files files' :
  files !! filename = Some archive →
  filename ∉ target (xfolder self) <$> namelist archive →
  NoDup (target (xfolder self) <$> namelist archive) →
  process self filename files = (Ok tt, files') →
  (∀ name, name ∈ namelist archive →
     ∃ member, read_member archive name = Ok member ∧
       ∀ data, member = Some data →
         files' !! target (xfolder self) name = Some data) ∧
  (∀ p, p ∉ target (xfolder self) <$> namelist archive → files' !! p = files !! p).
Proof.
  intros Hf Hnot Hnd H.
  unfold Extract.process, _secured_extract_file, _extract_file in H.
  rewrite Hf in H. destruct (is_zipfile archive); [|done].
  destruct (extract_names _ _ _ _) as [[[]|e] files1] eqn:Hloop; [|done].
  injection H as <-. split.
  - by eapply extract_names_ok.
  - intros p Hp. by eapply extract_names_frame.
Qed.



End Handler.

(** *** The properties on the small instance *)

Local Abbreviation demo_extract :=
  (Extract.process (λ _, true) demo_namelist demo_target demo_read_member
     demo_written_before_error).
Local Abbreviation demo_zip := ("tmp/N00E010.hgt.zip" : string).

Lemma extract_writes_witness :
  let out := demo_extract (mkExtractWorker "out") demo_zip demo_archive in
  out.1 = Ok tt ∧
  demo_namelist [Byte.x61; Byte.x01; Byte.x62; Byte.x02] = ["a"; "b"] ∧
  out.2 !! "out/b" = Some [Byte.x02] ∧
  (∀ name, name ∈ demo_namelist [Byte.x61; Byte.x01; Byte.x62; Byte.x02] →
     ∃ member,
       demo_read_member [Byte.x61; Byte.x01; Byte.x62; Byte.x02] name = Ok member ∧
       ∀ data, member = Some data → out.2 !! demo_target "out" name = Some data) ∧
  (∀ p, p ∉ demo_target "out" <$> demo_namelist [Byte.x61; Byte.x01; Byte.x62; Byte.x02] →
     out.2 !! p = demo_archive !! p).
Proof.
  intros out.
  assert (out.1 = Ok tt) as H1 by (vm_compute; reflexivity).
  split; [exact H1|]. split; [reflexivity|]. split; [vm_compute; reflexivity|].
  apply (extract_writes_every_member (λ _, true) demo_namelist demo_target
           demo_read_member demo_written_before_error
           (mkExtractWorker "out") demo_zip
           [Byte.x61; Byte.x01; Byte.x62; Byte.x02] demo_archive out.2).
  - vm_compute; reflexivity.
  - apply (bool_decide_unpack _). vm_compute. exact I.
  - apply (bool_decide_unpack _). vm_compute. exact I.
  - rewrite <- H1. apply surjective_pairing.
Defined.


End ExtractProps.

(* ===================================================================== *)
(** ** Properties of the raster decoder *)
(* ===================================================================== *)

Module HgtProps.
Import Hgt HgtBlocks.

Lemma byte_of_to_N z : 0 ≤ z < 256 → Z.of_N (Byte.to_N (byte_of z)) = z.
Proof.
  intros Hz. unfold byte_of.
  destruct (Byte.of_N (Z.to_N z)) as [b|] eqn:Hb.
  - apply Byte.to_of_N in Hb. cbn. rewrite Hb. lia.
  - apply Byte.of_N_None_iff in Hb. lia.
Qed.

(** Encoding keeps the 16 low bits, decoding reads them as a signed number. *)
Lemma unpack_pack_mod v :
  unpack_h (pack_h v)
  = Some (if 32768 <=? v mod 65536 then v mod 65536 - 65536 else v mod 65536).
Proof.
  unfold unpack_h, pack_h. cbn zeta.
  assert (0 ≤ v mod 65536 < 65536) as Hu by (apply Z.mod_pos_bound; lia).
  rewrite !byte_of_to_N.
  - by rewrite <- Z.div_mod by lia.
  - apply Z.mod_pos_bound. lia.
  - split; [apply Z.div_pos; lia|]. apply Z.div_lt_upper_bound; lia.
Qed.

Lemma mod_int16 v :
  int16 v → v mod 65536 = if v <? 0 then v + 65536 else v.
Proof.
  unfold int16. intros Hv. destruct (Z.ltb_spec v 0).
  - symmetry. apply (Z.mod_unique_pos _ _ (-1)); lia.
  - apply Z.mod_small. lia.
Qed.

(** Decoding inverts encoding: a 16-bit sample written big-endian is read
    back as itself. *)
Theorem unpack_h_pack_h v : int16 v → unpack_h (pack_h v) = Some v.
Proof.
  intros Hv. rewrite unpack_pack_mod, (mod_int16 v Hv). f_equal.
  unfold int16 in Hv.
  destruct (Z.ltb_spec v 0).
  - rewrite (proj2 (Z.leb_le _ _)) by lia. lia.
  - by rewrite (proj2 (Z.leb_gt _ _)) by lia.
Qed.

(** What is decoded is a 16-bit integer, and only buffers of two bytes are
    decoded. *)
Lemma unpack_h_int16 buf v :
  unpack_h buf = Some v → length buf = 2%nat ∧ int16 v.
Proof.
  unfold unpack_h, int16.
  destruct buf as [|hi [|lo [|]]]; try done. intros [= <-]. split; [done|].
  pose proof (Byte.to_N_bounded hi). pose proof (Byte.to_N_bounded lo).
  destruct (32768 <=? _) eqn:Hs; [apply Z.leb_le in Hs|apply Z.leb_gt in Hs]; lia.
Qed.

Lemma length_pack_h v : length (pack_h v) = 2%nat.
Proof. done. Qed.

Lemma hgt_file_sample samples : ∀ k v,
  samples !! k = Some v →
  take 2 (drop (2 * k) (hgt_file samples)) = pack_h v.
Proof.
  unfold hgt_file.
  induction samples as [|s samples IH]; intros k v Hk; [done|].
  destruct k as [|k].
  - injection Hk as ->. done.
  - replace (2 * S k)%nat with (S (S (2 * k))) by lia. cbn. by apply IH.
Qed.

Lemma length_hgt_file samples :
  length (hgt_file samples) = (2 * length samples)%nat.
Proof.
  unfold hgt_file. induction samples as [|s samples IH]; [done|].
  rewrite bind_cons, length_app, IH, length_pack_h. cbn. lia.
Qed.

Lemma hgt_file_decodes samples k v :
  Forall int16 samples →
  samples !! k = Some v →
  unpack_h (take 2 (drop (2 * k) (hgt_file samples))) = Some v.
Proof.
  intros Hall Hv.
  assert (int16 v) as Hi
    by (rewrite Forall_forall in Hall; apply Hall;
        by eapply list_elem_of_lookup_2).
  rewrite (hgt_file_sample _ _ _ Hv), unpack_pack_mod, (mod_int16 v Hi).
  unfold int16 in Hi. f_equal. destruct (Z.ltb_spec v 0).
  - rewrite (proj2 (Z.leb_le _ _)) by lia. lia.
  - by rewrite (proj2 (Z.leb_gt _ _)) by lia.
Qed.

Lemma get_value_in_range samples lat lng idx :
  Forall int16 samples →
  0 ≤ idx < Z.of_nat (length samples) →
  get_value (mkParser (hgt_file samples) lat lng) idx
  = Got (sample_at samples idx).
Proof.
  intros Hall Hidx. unfold get_value, sample_at. cbn [file].
  rewrite (proj2 (Z.ltb_ge _ _)) by lia.
  destruct (lookup_lt_is_Some_2 samples (Z.to_nat idx)) as [v Hv]; [lia|].
  replace (Z.to_nat (idx * 2)) with (2 * Z.to_nat idx)%nat by lia.
  by rewrite (hgt_file_decodes _ _ _ Hall Hv), Hv.
Qed.

(** [get_value] reads the sample at its index: on the file of a raster, an
    index of the raster gives the elevation of its sample ([None] for
    -32768), and an index before the first or after the last sample raises. *)
Theorem get_value_reads_sample samples lat lng idx :
  Forall int16 samples →
  get_value (mkParser (hgt_file samples) lat lng) idx =
    if bool_decide (0 ≤ idx < Z.of_nat (length samples))
    then Got (sample_at samples idx) else ReadFails.
Proof.
  intros Hall. case_bool_decide as Hidx.
  - by apply get_value_in_range.
  - unfold get_value. cbn [file].
    destruct (Z.ltb_spec idx 0) as [Hneg|Hpos]; [done|].
    rewrite drop_ge; [done|]. rewrite length_hgt_file. lia.
Qed.

Section Iterator.
Context {Square : Type}.
Variable shift : HgtParser → Z → Z → Square.

(** The value iterator walks the raster row by row: it takes
    [sample_lat * sample_lng] turns, the [k]-th one is for the index [k],
    and the 1-based line and column it yields lie in the raster and give
    back the index through [get_idx]. *)
Theorem value_iterator_row_major (p : HgtParser) :
  0 < sample_lng p →
  length (HgtValueIterator shift p) = Z.to_nat (sample_lat p * sample_lng p) ∧
  ∀ k y, HgtValueIterator shift p !! k = Some (Got y) →
    y_idx y = Z.of_nat k ∧
    1 ≤ y_line y ≤ sample_lat p ∧
    1 ≤ y_col y ≤ sample_lng p ∧
    get_idx p (y_col y - 1) (y_line y - 1) = y_idx y ∧
    get_value p (y_idx y) = Got (y_value y).
Proof.
  intros Hlng. unfold HgtValueIterator. split.
  - by rewrite length_fmap, length_seq.
  - intros k y Hk. rewrite list_lookup_fmap in Hk.
    destruct (seq _ _ !! k) as [k'|] eqn:Hseq; [|done].
    apply lookup_seq in Hseq as [-> Hlt]. cbn in Hk, Hlt.
    unfold yield_at in Hk.
    destruct (get_value p (Z.of_nat k)) as [v|] eqn:Hv; [|done].
    injection Hk as <-. cbn.
    pose proof (Z.mod_pos_bound (Z.of_nat k) (sample_lng p) Hlng).
    assert (0 ≤ Z.of_nat k / sample_lng p) by (apply Z.div_pos; lia).
    assert (Z.of_nat k / sample_lng p < sample_lat p)
      by (apply Z.div_lt_upper_bound; lia).
    split_and!; try done; try lia.
    unfold get_idx.
    rewrite (Z.div_mod (Z.of_nat k) (sample_lng p)) at 3 by lia. lia.
Qed.

Lemma fmap_seq_lookup {A} (d : A) (l : list A) :
  (λ k, default d (l !! k)) <$> seq 0 (length l) = l.
Proof.
  induction l as [|a l IH] using rev_ind; [done|].
  rewrite length_app, Nat.add_1_r, seq_S, fmap_app. cbn.
  rewrite lookup_app_r, Nat.sub_diag by done. cbn. f_equal.
  rewrite <- IH at 2. apply list_fmap_ext. intros i k Hk.
  apply lookup_seq in Hk as [Heq Hlt]. cbn in Heq. subst i.
  by rewrite lookup_app_l by done.
Qed.

Lemma value_iterator_on_file (samples : list Z) (lat lng : Z) :
  Forall int16 samples →
  Z.of_nat (length samples) = lat * lng →
  HgtValueIterator shift (mkParser (hgt_file samples) lat lng)
  = Got <$> raster_yields shift (mkParser (hgt_file samples) lat lng) samples.
Proof.
  intros Hall Hlen. unfold HgtValueIterator, raster_yields.
  cbn [sample_lat sample_lng]. rewrite <- Hlen, Nat2Z.id.
  rewrite <- list_fmap_compose. apply list_fmap_ext. intros i k Hk.
  apply lookup_seq in Hk as [Heq Hlt]. cbn in Heq. subst i. cbn.
  unfold yield_at.
  by rewrite (get_value_in_range samples lat lng (Z.of_nat k) Hall) by lia.
Qed.

Lemma raster_yields_values p (samples : list Z) :
  y_value <$> raster_yields shift p samples = elevation <$> samples.
Proof.
  unfold raster_yields. rewrite <- list_fmap_compose.
  rewrite <- (fmap_seq_lookup 0 samples) at 2.
  rewrite <- list_fmap_compose. apply list_fmap_ext. intros i k _. cbn.
  unfold sample_at. by rewrite Nat2Z.id.
Qed.

Lemma raster_yields_idx p (samples : list Z) :
  y_idx <$> raster_yields shift p samples = Z.of_nat <$> seq 0 (length samples).
Proof. unfold raster_yields. by rewrite <- list_fmap_compose. Qed.

(** On the file of a raster the value iterator never raises, and it delivers
    the samples in the order of the file, each with its index. *)
Theorem value_iterator_delivers_samples (samples : list Z) (lat lng : Z) :
  Forall int16 samples →
  Z.of_nat (length samples) = lat * lng →
  ∃ ys, HgtValueIterator shift (mkParser (hgt_file samples) lat lng) = Got <$> ys ∧
        y_value <$> ys = elevation <$> samples ∧
        y_idx <$> ys = Z.of_nat <$> seq 0 (length samples).
Proof.
  intros Hall Hlen.
  exists (raster_yields shift (mkParser (hgt_file samples) lat lng) samples).
  split_and!.
  - by apply value_iterator_on_file.
  - apply raster_yields_values.
  - apply raster_yields_idx.
Qed.

End Iterator.

(** *** Ranges *)

(** More turns than the range has elements change nothing: the bound of
    [py_range] is enough. *)
Lemma range_from_stable step fuel fuel' start stop :
  step ≠ 0 →
  (Z.to_nat (if (0 <? step)%Z then stop - start else start - stop) ≤ fuel)%nat →
  (Z.to_nat (if (0 <? step)%Z then stop - start else start - stop) ≤ fuel')%nat →
  range_from fuel start stop step = range_from fuel' start stop step.
Proof.
  intros Hstep. revert fuel' start.
  induction fuel as [|fuel IH]; intros fuel' start Hf Hf';
    destruct fuel' as [|fuel']; cbn [range_from]; [done|..];
    destruct (Z.ltb_spec 0 step);
    try destruct (Z.ltb_spec start stop); try destruct (Z.ltb_spec stop start);
    try done; try lia.
  all: f_equal; apply IH;
    [destruct (Z.ltb_spec 0 step)|destruct (Z.ltb_spec 0 step)]; lia.
Qed.

Lemma range_from_enough step fuel start stop :
  step ≠ 0 →
  (Z.to_nat (Z.abs (stop - start)) ≤ fuel)%nat →
  Some (range_from fuel start stop step) = py_range start stop step.
Proof.
  intros Hstep Hfuel. unfold py_range.
  rewrite (proj2 (Z.eqb_neq _ _)) by done. f_equal.
  apply range_from_stable; [done|..]; destruct (0 <? step); lia.
Qed.

Lemma py_range2_nil a b : b ≤ a → py_range2 a b = [].
Proof.
  intros Hle. unfold py_range2. by replace (Z.to_nat (b - a)) with 0%nat by lia.
Qed.

Lemma py_range2_cons a b : a < b → py_range2 a b = a :: py_range2 (a + 1) b.
Proof.
  intros Hlt. unfold py_range2.
  replace (Z.to_nat (b - a)) with (S (Z.to_nat (b - (a + 1)))) by lia.
  cbn. by rewrite (proj2 (Z.ltb_lt _ _)) by done.
Qed.

Lemma py_range2_ind (P : Z → Z → Prop) :
  (∀ a b, b ≤ a → P a b) →
  (∀ a b, a < b → P (a + 1) b → P a b) →
  ∀ a b, P a b.
Proof.
  intros Hnil Hcons a b.
  remember (Z.to_nat (b - a)) as n eqn:Hn. revert a Hn.
  induction n as [|n IH]; intros a Hn.
  - apply Hnil. lia.
  - apply Hcons; [lia|]. apply IH. lia.
Qed.

Lemma elem_of_py_range2 a b x : x ∈ py_range2 a b ↔ a ≤ x < b.
Proof.
  revert x. pattern a, b. apply py_range2_ind; clear a b.
  - intros a b Hle x. rewrite py_range2_nil by done.
    rewrite elem_of_nil. lia.
  - intros a b Hlt IH x. rewrite py_range2_cons by done.
    rewrite elem_of_cons, IH. lia.
Qed.

Lemma py_range2_app a b c :
  a ≤ b → b ≤ c → py_range2 a b ++ py_range2 b c = py_range2 a c.
Proof.
  revert c. pattern a, b. apply py_range2_ind; clear a b.
  - intros a b Hle c Hab Hbc. assert (a = b) as -> by lia.
    by rewrite py_range2_nil by done.
  - intros a b Hlt IH c _ Hbc.
    rewrite (py_range2_cons a b), (py_range2_cons a c) by lia.
    cbn. f_equal. apply IH; lia.
Qed.

Lemma py_range2_seq n :
  py_range2 0 (Z.of_nat n) = Z.of_nat <$> seq 0 n.
Proof.
  induction n as [|n IH]; [done|].
  rewrite seq_S, fmap_app, <- IH. cbn [fmap list_fmap "+"%nat].
  rewrite <- (py_range2_app 0 (Z.of_nat n) (Z.of_nat (S n))) by lia.
  f_equal. rewrite py_range2_cons by lia.
  by rewrite py_range2_nil by lia.
Qed.

(** The starts of the tiles are inside the raster. *)
Lemma elem_of_range_from fuel start stop step x :
  0 < step → x ∈ range_from fuel start stop step → start ≤ x < stop.
Proof.
  intros Hstep. revert start.
  induction fuel as [|fuel IH]; intros start; cbn; [by rewrite elem_of_nil|].
  rewrite (proj2 (Z.ltb_lt _ _)) by done.
  destruct (start <? stop) eqn:Hlt; [|by rewrite elem_of_nil].
  apply Z.ltb_lt in Hlt. rewrite elem_of_cons. intros [->|Hx]; [lia|].
  apply IH in Hx. lia.
Qed.

(** Tiles of width [step] cut along one axis cover it, in order. *)
Lemma tiles_cover step fuel start stop :
  0 < step →
  (Z.to_nat (stop - start) ≤ fuel)%nat →
  range_from fuel start stop step
    ≫= (λ x, py_range2 x (Z.min stop (x + step)))
  = py_range2 start stop.
Proof.
  intros Hstep. revert start.
  induction fuel as [|fuel IH]; intros start Hfuel.
  - by rewrite py_range2_nil by lia.
  - cbn [range_from]. rewrite (proj2 (Z.ltb_lt _ _)) by done.
    destruct (start <? stop) eqn:Hlt.
    + apply Z.ltb_lt in Hlt. rewrite bind_cons, IH by lia.
      destruct (Z.le_gt_cases stop (start + step)).
      * rewrite Z.min_l by done.
        rewrite (py_range2_nil (start + step) stop) by done.
        by rewrite app_nil_r.
      * rewrite Z.min_r by lia. apply py_range2_app; lia.
    + apply Z.ltb_ge in Hlt. by rewrite py_range2_nil by done.
Qed.

(** *** Lists *)

Lemma read_all_got {A B} (f : A → read B) (g : A → B) (l : list A) :
  Forall (λ x, f x = Got (g x)) l → read_all (f <$> l) = Got (g <$> l).
Proof.
  induction 1 as [|x l Hx _ IH]; [done|]. cbn. by rewrite Hx, IH.
Qed.

Lemma bind_nil_r {A B} (l : list A) : l ≫= (λ _, @nil B) = [].
Proof. by induction l. Qed.

Lemma bind_app_r {A B} (f g : A → list B) (l : list A) :
  l ≫= (λ x, f x ++ g x) ≡ₚ (l ≫= f) ++ (l ≫= g).
Proof.
  induction l as [|x l IH]; [done|]. rewrite !bind_cons, IH.
  rewrite <- !(assoc_L (++)). f_equiv.
  rewrite !(assoc_L (++)). f_equiv. apply Permutation_app_comm.
Qed.

(** Two nested loops may be exchanged, up to the order of the results. *)
Lemma bind_swap {A B C} (f : A → B → list C) (la : list A) (lb : list B) :
  la ≫= (λ a, lb ≫= f a) ≡ₚ lb ≫= (λ b, la ≫= (λ a, f a b)).
Proof.
  induction lb as [|b lb IH].
  - change (la ≫= (λ _, @nil C) ≡ₚ []). by rewrite bind_nil_r.
  - rewrite bind_cons, <- IH. apply (bind_app_r (λ a, f a b)).
Qed.

Lemma bind_bind {A B C} (f : A → list B) (g : B → list C) (l : list A) :
  (l ≫= f) ≫= g = l ≫= (λ x, f x ≫= g).
Proof.
  induction l as [|x l IH]; [done|]. by rewrite !bind_cons, bind_app, IH.
Qed.

Lemma bind_fmap_r {A B} (f : A → B) (l : list A) :
  l ≫= (λ x, [f x]) = f <$> l.
Proof. induction l as [|x l IH]; [done|]. cbn. by f_equal. Qed.

(** A raster of [a] lines of [b] samples, read line by line. *)
Lemma seq_row_major (a b : nat) :
  seq 0 (a * b) = seq 0 a ≫= (λ l, (λ c, l * b + c)%nat <$> seq 0 b).
Proof.
  induction a as [|a IH]; [done|].
  rewrite seq_S, bind_app, <- IH, bind_singleton.
  replace (S a * b)%nat with (a * b + b)%nat by lia.
  rewrite seq_app. f_equal. cbn [plus].
  pose proof (fmap_add_seq (a * b) 0 b) as Hs.
  rewrite Nat.add_0_r in Hs. by rewrite <- Hs.
Qed.

Lemma fmap_bind_r {A B C} (g : B → C) (f : A → list B) (l : list A) :
  g <$> (l ≫= f) = l ≫= (λ x, g <$> f x).
Proof.
  induction l as [|x l IH]; [done|]. by rewrite !bind_cons, fmap_app, IH.
Qed.

Lemma bind_perm_ext {A B} (f g : A → list B) (l : list A) :
  (∀ x, f x ≡ₚ g x) → l ≫= f ≡ₚ l ≫= g.
Proof.
  intros Hfg. induction l as [|x l IH]; [done|].
  by rewrite !bind_cons, IH, Hfg.
Qed.

Lemma length_py_range2 a b : length (py_range2 a b) = Z.to_nat (b - a).
Proof.
  pattern a, b. apply py_range2_ind; clear a b.
  - intros a b Hle. rewrite py_range2_nil by done. cbn. lia.
  - intros a b Hlt IH. rewrite py_range2_cons by done. cbn. rewrite IH. lia.
Qed.

(** *** The block iterator *)

Section Blocks.
Variable samples : list Z.
Variables lat lng width height : Z.
Hypothesis samples_int16 : Forall int16 samples.
Hypothesis lat_nonneg : 0 ≤ lat.
Hypothesis lng_nonneg : 0 ≤ lng.
Hypothesis samples_length : Z.of_nat (length samples) = lat * lng.
Hypothesis width_pos : 0 < width.
Hypothesis height_pos : 0 < height.

Local Abbreviation p := (mkParser (hgt_file samples) lat lng).
Local Abbreviation it := (mkSampleIterator p width height).
Local Abbreviation block_of := (raster_block samples lat lng width height).
Local Abbreviation blocks := (raster_blocks samples lat lng width height).

Lemma get_value_in_raster l c :
  0 ≤ l < lat → 0 ≤ c < lng →
  get_value p (get_idx p c l) = Got (sample_at samples (l * lng + c)).
Proof.
  intros Hl Hc. unfold get_idx. cbn [sample_lng].
  apply get_value_in_range; [done|]. nia.
Qed.

Lemma read_line_in_raster C l :
  0 ≤ l < lat → 0 ≤ C →
  _read_line it C l
  = Got ((λ c, sample_at samples (l * lng + c))
         <$> py_range2 C (Z.min lng (C + width))).
Proof.
  intros Hl HC. unfold _read_line. cbn [s_parser s_width sample_lng].
  apply read_all_got, Forall_forall. intros c Hc%elem_of_py_range2.
  apply get_value_in_raster; lia.
Qed.

Lemma square_in_raster C T :
  0 ≤ T → 0 ≤ C → _get_square_values it C T = Got (block_of T C).
Proof.
  intros HT HC. unfold _get_square_values, raster_block.
  cbn [s_parser s_height sample_lat].
  apply read_all_got, Forall_forall. intros l Hl%elem_of_py_range2.
  apply read_line_in_raster; lia.
Qed.

Lemma rows_are_samples :
  py_range2 0 lat
    ≫= (λ l, (λ c, sample_at samples (l * lng + c)) <$> py_range2 0 lng)
  = elevation <$> samples.
Proof.
  assert (length samples = (Z.to_nat lat * Z.to_nat lng)%nat) as Hlen by nia.
  rewrite <- (Z2Nat.id lat), <- (Z2Nat.id lng) by done.
  rewrite !py_range2_seq, list_fmap_bind.
  pose proof (fmap_seq_lookup 0 samples) as Hs.
  rewrite Hlen, seq_row_major in Hs.
  etrans; [|exact (f_equal (fmap elevation) Hs)].
  rewrite !fmap_bind_r. apply list_bind_ext; [|done]. intros l. cbn.
  rewrite <- !list_fmap_compose. apply list_fmap_ext. intros _ c _. cbn.
  unfold sample_at. do 3 f_equal. lia.
Qed.

(** The block iterator delivers the blocks of the raster. *)
Lemma sample_blocks_on_file : sample_blocks it = Got <$> blocks.
Proof.
  unfold sample_blocks, raster_blocks, py_range.
  cbn [s_parser s_height s_width sample_lat sample_lng].
  rewrite !(proj2 (Z.eqb_neq _ _)) by lia.
  rewrite fmap_bind_r. apply Forall_bind_ext, Forall_forall.
  intros T HT%elem_of_range_from; [|done].
  rewrite <- list_fmap_compose. apply Forall_fmap_ext_1, Forall_forall.
  intros C HC%elem_of_range_from; [|done]. cbn.
  apply square_in_raster; lia.
Qed.

(** No block is larger than asked for. *)
Lemma raster_blocks_bounded :
  Forall (λ block, Z.of_nat (length block) ≤ height ∧
                   Forall (λ line, Z.of_nat (length line) ≤ width) block)
         blocks.
Proof.
  apply Forall_bind, Forall_forall. intros T _. cbn.
  apply Forall_fmap, Forall_forall. intros C _. cbn. unfold raster_block.
  rewrite length_fmap, length_py_range2. split; [lia|].
  apply Forall_fmap, Forall_forall. intros l _. cbn.
  rewrite length_fmap, length_py_range2. lia.
Qed.

(** The blocks hold the samples of the raster, each one once. *)
Lemma raster_blocks_cover : mjoin (mjoin blocks) ≡ₚ elevation <$> samples.
Proof.
  unfold raster_blocks. rewrite !list_join_bind, !bind_bind.
  rewrite <- rows_are_samples.
  rewrite <- (tiles_cover height (Z.to_nat (Z.abs (lat - 0))) 0 lat)
    by (done || lia).
  rewrite bind_bind. apply bind_perm_ext. intros T.
  rewrite list_fmap_bind.
  set (cols := range_from (Z.to_nat (Z.abs (lng - 0))) 0 lng width).
  trans (cols ≫= λ C, py_range2 T (Z.min lat (T + height)) ≫= λ l,
           (λ c, sample_at samples (l * lng + c))
           <$> py_range2 C (Z.min lng (C + width))).
  { apply bind_perm_ext. intros C. unfold compose, id, raster_block.
    by rewrite list_fmap_bind. }
  etrans;
    [apply (bind_swap
              (λ C l, (λ c, sample_at samples (l * lng + c))
                      <$> py_range2 C (Z.min lng (C + width)))
              cols (py_range2 T (Z.min lat (T + height))))|].
  apply bind_perm_ext. intros l.
  rewrite <- (tiles_cover width (Z.to_nat (Z.abs (lng - 0))) 0 lng)
    by (done || lia).
  fold cols. by rewrite fmap_bind_r.
Qed.

(** The blocks tile the raster: on the file of a [lat] x [lng] raster, with a
    positive width and height, the block iterator never raises, no block is
    larger than [height] lines of [width] values, and together the blocks
    hold every sample of the raster exactly once. *)
Theorem sample_iterator_tiles_raster :
  ∃ delivered,
    sample_blocks it = Got <$> delivered ∧
    Forall (λ block, Z.of_nat (length block) ≤ height ∧
                     Forall (λ line, Z.of_nat (length line) ≤ width) block)
           delivered ∧
    mjoin (mjoin delivered) ≡ₚ elevation <$> samples.
Proof.
  exists blocks. split_and!.
  - apply sample_blocks_on_file.
  - apply raster_blocks_bounded.
  - apply raster_blocks_cover.
Qed.

End Blocks.

Lemma range_from_backwards fuel stop step :
  step < 0 → 0 ≤ stop → range_from fuel 0 stop step = [].
Proof.
  intros Hstep Hstop. destruct fuel as [|fuel]; [done|]. cbn [range_from].
  rewrite (proj2 (Z.ltb_ge 0 step)) by lia.
  by rewrite (proj2 (Z.ltb_ge stop 0)) by lia.
Qed.

(** A negative width or height is no error: the ranges of the block iterator
    are then empty and it delivers nothing, whatever the file holds. *)
Theorem sample_iterator_negative_size_is_silent (p : HgtParser) (width height : Z) :
  0 ≤ sample_lat p → 0 ≤ sample_lng p →
  width ≠ 0 → height ≠ 0 →
  width < 0 ∨ height < 0 →
  sample_blocks (mkSampleIterator p width height) = [].
Proof.
  intros Hlat Hlng Hw Hh Hneg. unfold sample_blocks, py_range.
  cbn [s_parser s_width s_height].
  rewrite !(proj2 (Z.eqb_neq _ _)) by done.
  destruct (Z.lt_ge_cases height 0) as [Hlt|Hge].
  - by rewrite (range_from_backwards _ (sample_lat p) height).
  - rewrite (range_from_backwards _ (sample_lng p) width) by lia.
    apply bind_nil_r.
Qed.

(** Witnesses *)

Lemma unpack_h_pack_h_witness :
  int16 (-32768) ∧ unpack_h (pack_h (-32768)) = Some (-32768).
Proof.
  assert (int16 (-32768)) as Hv by (unfold int16; lia).
  split; [exact Hv|]. apply (unpack_h_pack_h (-32768) Hv).
Defined.

Lemma demo_raster_int16 : Forall int16 demo_raster.
Proof. repeat constructor; unfold int16; lia. Defined.

Lemma get_value_reads_sample_witness :
  Forall int16 demo_raster ∧
  get_value (mkParser (hgt_file demo_raster) 3 3) 4 = Got None ∧
  get_value (mkParser (hgt_file demo_raster) 3 3) 9 = ReadFails.
Proof.
  split; [exact demo_raster_int16|]. split.
  - apply (get_value_reads_sample demo_raster 3 3 4 demo_raster_int16).
  - apply (get_value_reads_sample demo_raster 3 3 9 demo_raster_int16).
Defined.

Lemma value_iterator_row_major_witness :
  let p := mkParser (hgt_file demo_raster) 3 3 in
  0 < sample_lng p ∧
  length (HgtValueIterator (λ _ _ _, tt) p) = 9%nat ∧
  ∀ k y, HgtValueIterator (λ _ _ _, tt) p !! k = Some (Got y) →
    y_idx y = Z.of_nat k ∧
    1 ≤ y_line y ≤ sample_lat p ∧
    1 ≤ y_col y ≤ sample_lng p ∧
    get_idx p (y_col y - 1) (y_line y - 1) = y_idx y ∧
    get_value p (y_idx y) = Got (y_value y).
Proof.
  intros p. assert (0 < sample_lng p) as Hlng by (cbn; lia).
  split; [exact Hlng|].
  apply (value_iterator_row_major (λ _ _ _, tt) p Hlng).
Defined.

Lemma value_iterator_delivers_samples_witness :
  Forall int16 demo_raster ∧
  Z.of_nat (length demo_raster) = 3 * 3 ∧
  ∃ ys, HgtValueIterator (λ _ _ _, tt) (mkParser (hgt_file demo_raster) 3 3)
          = Got <$> ys ∧
        y_value <$> ys = elevation <$> demo_raster ∧
        y_idx <$> ys = Z.of_nat <$> seq 0 (length demo_raster).
Proof.
  split; [exact demo_raster_int16|]. split; [reflexivity|].
  apply (value_iterator_delivers_samples (λ _ _ _, tt) demo_raster 3 3
           demo_raster_int16).
  reflexivity.
Defined.

Lemma sample_iterator_tiles_raster_witness :
  ∃ blocks,
    sample_blocks (mkSampleIterator (mkParser (hgt_file demo_raster) 3 3) 2 2)
      = Got <$> blocks ∧
    Forall (λ block, Z.of_nat (length block) ≤ 2 ∧
                     Forall (λ line, Z.of_nat (length line) ≤ 2) block)
           blocks ∧
    mjoin (mjoin blocks) ≡ₚ elevation <$> demo_raster.
Proof.
  apply (sample_iterator_tiles_raster demo_raster 3 3 2 2 demo_raster_int16);
    [lia|lia|reflexivity|lia|lia].
Defined.

Lemma sample_iterator_negative_size_witness :
  sample_blocks (mkSampleIterator (mkParser (hgt_file demo_raster) 3 3) 2 (-2))
    = [].
Proof.
  apply (sample_iterator_negative_size_is_silent
           (mkParser (hgt_file demo_raster) 3 3) 2 (-2));
    cbn; lia.
Defined.

End HgtProps.

(* ===================================================================== *)
(** ** Properties of the import stage *)
(* ===================================================================== *)

Module ImportLoopProps.
Import Hgt HgtBlocks HgtProps ImportStage ImportIterator.

Section RecordingManager.
Context {V : Type}.
Implicit Types (it : elev_iter V) (vals received : list V) (stop : nat → bool).



(** The loop over values that are delivered while the stop event is clear. *)
Lemma import_loop_got p total at_end stop vals rest : ∀ k processed received,
  total ≠ 0 →
  (∀ j, (j < length vals)%nat → stop (k + j)%nat = false) →
  import_loop p total at_end stop k ((Got <$> vals) ++ rest) processed received
  = import_loop p total at_end stop (k + length vals) rest
      (processed + Z.of_nat (length vals)) (received ++ vals).
Proof.
  intros k processed received Htotal.
  revert k processed received.
  induction vals as [|v vals IH]; intros k processed received Hstop.
  - cbn. by rewrite app_nil_r, Z.add_0_r, Nat.add_0_r.
  - cbn [fmap list_fmap app import_loop].
    pose proof (Hstop 0%nat) as H0. rewrite Nat.add_0_r in H0.
    rewrite H0 by (cbn; lia). cbn.
    rewrite (proj2 (Z.eqb_neq _ _)) by done.
    change (list_fmap V (read V) Got vals) with (Got <$> vals).
    rewrite IH.
    + rewrite <- (assoc_L (++)). cbn [app length]. f_equal; lia.
    + intros j Hj. replace (S k + j)%nat with (k + S j)%nat by lia.
      apply Hstop. cbn. lia.
Qed.

(** With the stop event never set and a total that is not 0, every value the
    iterator delivers is inserted, in order, and the loop ends as the
    generator ends. *)
Theorem execute_import_inserts_everything it stop received vals :
  delivers it = Got <$> vals →
  (∀ k, stop k = false) →
  nb_values it ≠ 0 →
  _execute_import it stop received
  = (generator_end it, received ++ vals, Z.of_nat (length vals)).
Proof.
  intros Hd Hstop Htotal. unfold _execute_import.
  rewrite Hd, <- (app_nil_r (Got <$> vals)).
  by rewrite import_loop_got by done.
Qed.

(** Once the stop event is seen set, nothing more is inserted: the values
    before that turn are in the manager, the one of that turn and the ones
    after it are not. *)
Theorem execute_import_stops_at_signal it stop received vals v rest :
  delivers it = (Got <$> vals) ++ Got v :: rest →
  (∀ j, (j < length vals)%nat → stop j = false) →
  stop (length vals) = true →
  nb_values it ≠ 0 →
  _execute_import it stop received
  = (Stopped, received ++ vals, Z.of_nat (length vals)).
Proof.
  intros Hd Hclear Hset Htotal. unfold _execute_import.
  rewrite Hd, import_loop_got by done. cbn. by rewrite Hset.
Qed.

(** A total of 0 is only noticed after the first insert: the value is in the
    manager when the division for the progress line raises. *)
Theorem execute_import_zero_total it stop received v rest :
  nb_values it = 0 →
  delivers it = Got v :: rest →
  stop 0%nat = false →
  _execute_import it stop received
  = (Raised ZeroDivisionError, received ++ [v], 1).
Proof.
  intros Htotal Hd Hstop. unfold _execute_import.
  rewrite Hd, Htotal. cbn. by rewrite Hstop.
Qed.

(** A value that cannot be decoded ends the import with the error, and keeps
    what was inserted before it. *)
Theorem execute_import_decode_error it stop received vals rest :
  delivers it = (Got <$> vals) ++ ReadFails :: rest →
  (∀ j, (j < length vals)%nat → stop j = false) →
  nb_values it ≠ 0 →
  _execute_import it stop received
  = (Raised DecodeError, received ++ vals, Z.of_nat (length vals)).
Proof.
  intros Hd Hclear Htotal. unfold _execute_import.
  by rewrite Hd, import_loop_got by done.
Qed.

End RecordingManager.

(** *** The choice of the iterator *)

Lemma range_from_single fuel n :
  0 < n → range_from (S fuel) 0 n n = [0].
Proof.
  intros Hn. cbn [range_from]. rewrite !(proj2 (Z.ltb_lt 0 n)) by done.
  f_equal. destruct fuel as [|fuel]; [done|]. cbn [range_from].
  rewrite (proj2 (Z.ltb_lt 0 n)) by done.
  by rewrite (proj2 (Z.ltb_ge _ _)) by lia.
Qed.

Lemma py_or_falsy x y : x = None ∨ x = Some 0 → py_or x y = y.
Proof. by intros [->| ->]. Qed.

(** With no block size configured ([None] or 0 for the width and for the
    height), the raster import takes a block iterator of the size of the
    raster: it delivers one block, the lines of the raster in order. *)
Theorem default_block_is_whole_raster (self : ImportWorker)
    (samples : list Z) (lat lng : Z) :
  Forall int16 samples →
  0 < lat → 0 < lng →
  Z.of_nat (length samples) = lat * lng →
  use_raster self = true →
  sample_with self = None ∨ sample_with self = Some 0 →
  sample_height self = None ∨ sample_height self = Some 0 →
  ∃ it rows,
    _get_iterator self (mkParser (hgt_file samples) lat lng) = SampleIterator it ∧
    sample_blocks it = [Got rows] ∧
    Z.of_nat (length rows) = lat ∧
    Forall (λ row, Z.of_nat (length row) = lng) rows ∧
    mjoin rows = elevation <$> samples.
Proof.
  intros Hall Hlat Hlng Hlen Hraster Hw Hh.
  set (p := mkParser (hgt_file samples) lat lng).
  exists (mkSampleIterator p lng lat), (raster_block samples lat lng lng lat 0 0).
  split_and!.
  - unfold _get_iterator. rewrite Hraster. cbn [sample_lng sample_lat p].
    by rewrite !py_or_falsy.
  - unfold sample_blocks, py_range. cbn [s_parser s_width s_height sample_lat sample_lng p].
    rewrite !(proj2 (Z.eqb_neq _ _)) by lia.
    replace (Z.to_nat (Z.abs (lat - 0))) with (S (Z.to_nat (lat - 1))) by lia.
    replace (Z.to_nat (Z.abs (lng - 0))) with (S (Z.to_nat (lng - 1))) by lia.
    rewrite !range_from_single by done. cbn [mbind list_bind fmap list_fmap app].
    f_equal.
    by rewrite (square_in_raster samples lat lng lng lat) by (done || lia).
  - unfold raster_block. rewrite length_fmap, length_py_range2. lia.
  - apply Forall_fmap, Forall_forall. intros l _. cbn.
    rewrite length_fmap, length_py_range2. lia.
  - unfold raster_block. rewrite list_join_bind, list_fmap_bind.
    rewrite !Z.add_0_l, !Z.min_id.
    apply rows_are_samples; (done || lia).
Qed.

(** Witnesses *)

Lemma execute_import_inserts_everything_witness :
  _execute_import (mkIter nat (mkParser [] 1 3) [Got 7; Got 8; Got 9]%nat 3 Completed)
    (λ _, false) []
  = (Completed, [7; 8; 9]%nat, 3).
Proof.
  apply (execute_import_inserts_everything
           (mkIter nat (mkParser [] 1 3) [Got 7; Got 8; Got 9]%nat 3 Completed)
           (λ _, false) [] [7; 8; 9]%nat);
    [reflexivity|reflexivity|cbn; lia].
Defined.

Lemma execute_import_stops_at_signal_witness :
  _execute_import (mkIter nat (mkParser [] 1 3) [Got 7; Got 8; Got 9]%nat 3 Completed)
    (λ k, bool_decide (1 ≤ k)%nat) []
  = (Stopped, [7]%nat, 1).
Proof.
  apply (execute_import_stops_at_signal
           (mkIter nat (mkParser [] 1 3) [Got 7; Got 8; Got 9]%nat 3 Completed)
           (λ k, bool_decide (1 ≤ k)%nat) [] [7]%nat 8%nat [Got 9%nat]);
    [reflexivity| |reflexivity|cbn; lia].
  intros j Hj. cbn in Hj. apply bool_decide_false. lia.
Defined.

Lemma execute_import_zero_total_witness :
  _execute_import (mkIter nat (mkParser [] 1 3) [Got 7; Got 8; Got 9]%nat 0 Completed)
    (λ _, false) []
  = (Raised ZeroDivisionError, [7]%nat, 1).
Proof.
  apply (execute_import_zero_total
           (mkIter nat (mkParser [] 1 3) [Got 7; Got 8; Got 9]%nat 0 Completed)
           (λ _, false) [] 7%nat [Got 8; Got 9]%nat);
    reflexivity.
Defined.

Lemma execute_import_decode_error_witness :
  _execute_import (mkIter nat (mkParser [] 1 3) [Got 7; ReadFails; Got 9]%nat 3 Completed)
    (λ _, false) []
  = (Raised DecodeError, [7]%nat, 1).
Proof.
  apply (execute_import_decode_error
           (mkIter nat (mkParser [] 1 3) [Got 7; ReadFails; Got 9]%nat 3 Completed)
           (λ _, false) [] [7]%nat [Got 9%nat]);
    [reflexivity|reflexivity|cbn; lia].
Defined.

Lemma default_block_is_whole_raster_witness :
  ∃ it rows,
    _get_iterator (mkImportWorker true None (Some 0))
      (mkParser (hgt_file demo_raster) 3 3) = SampleIterator it ∧
    sample_blocks it = [Got rows] ∧
    Z.of_nat (length rows) = 3 ∧
    Forall (λ row, Z.of_nat (length row) = 3) rows ∧
    mjoin rows = elevation <$> demo_raster.
Proof.
  apply (default_block_is_whole_raster (mkImportWorker true None (Some 0))
           demo_raster 3 3 demo_raster_int16);
    [lia|lia|reflexivity|reflexivity|by left|by right].
Defined.

End ImportLoopProps.
